(** * TRACK-B-MAPAQ: front-end helpers and the data pipeline

    A shallow embedding of the JavaScript helpers of the dashboard
    (the API cache, the lazy loader and the performance monitor) and of
    the batch data pipeline described by the project documentation.

    Conventions.  Every reading of the wall clock ([Date.now()]) and every
    draw of [Math.random()] is an explicit argument of the operation that
    performs it; browser objects the scripts mutate (the cache map, the
    observer's target set, the outgoing requests) are explicit state. *)

From Stdlib Require Import ZArith QArith List Ascii String Bool Lia.
From stdpp Require Import gmap strings list.

Local Open Scope Z_scope.

(* ===================================================================== *)
(** * Part I: definitions                                                 *)
(* ===================================================================== *)

(** ** APICache: timestamped entries in a JavaScript [Map] *)

Module APICache.
Section Cache.
Context {K : Type} `{Countable K} {D : Type}.

(** The object literal [{ data, timestamp }] stored under a key. *)
Record Item := mkItem { data : D; timestamp : Z }.

(** The instance: [this.cache] and [this.maxAge]. *)
Record t := mkCache { cache : gmap K Item; maxAge : Z }.

(** [constructor(maxAge = 300000)]: an omitted argument takes the default. *)
Definition new (arg : option Z) : t :=
  {| cache := ∅; maxAge := default 300000 arg |}.

(** [get(key)], with [now] the value of [Date.now()].  A stored item is an
    object, hence truthy: [!item] holds exactly when the key is absent.
    [None] stands for the [null] the method returns. *)
Definition get (now : Z) (key : K) (c : t) : option D * t :=
  match cache c !! key with
  | None => (None, c)
  | Some item =>
      if maxAge c <? now - timestamp item
      then (None, {| cache := delete key (cache c); maxAge := maxAge c |})
      else (Some (data item), c)
  end.

(** [set(key, data)], with [now] the value of [Date.now()]. *)
Definition set (now : Z) (key : K) (d : D) (c : t) : t :=
  {| cache := <[key := {| data := d; timestamp := now |}]> (cache c);
     maxAge := maxAge c |}.

(** A call made by a client of the cache, and a history of calls, oldest
    first, each with the clock reading it made. *)
Inductive Op := CallGet (key : K) | CallSet (key : K) (d : D).

Definition step (now : Z) (op : Op) (c : t) : t :=
  match op with
  | CallGet key => snd (get now key c)
  | CallSet key d => set now key d c
  end.

Fixpoint replay (h : list (Z * Op)) (c : t) : t :=
  match h with
  | [] => c
  | (now, op) :: h' => replay h' (step now op c)
  end.

(** The item written by the most recent [set] on [key] in a history
    ([acc] is the answer for the empty history). *)
Fixpoint last_set (key : K) (h : list (Z * Op)) (acc : option Item) : option Item :=
  match h with
  | [] => acc
  | (now, CallSet key' d) :: h' =>
      last_set key h'
        (if decide (key = key') then Some {| data := d; timestamp := now |} else acc)
  | (_, CallGet _) :: h' => last_set key h' acc
  end.

(** The clock never runs backwards along the history, nor from its last
    call to [now]. *)
Fixpoint chronological (h : list (Z * Op)) (now : Z) : bool :=
  match h with
  | [] => true
  | (t0, _) :: h' =>
      match h' with
      | [] => t0 <=? now
      | (t1, _) :: _ => (t0 <=? t1) && chronological h' now
      end
  end.
End Cache.
Arguments Item : clear implicits.
Arguments t : clear implicits.
Arguments t K {_ _} D.
Arguments Op : clear implicits.
End APICache.

(** ** LazyLoader: loading components when they scroll into view *)

Module LazyLoader.
(** A DOM element, by identity. *)
Definition Node := nat.

(** The markup of an element: [Original] while the loader has assigned
    nothing to its [innerHTML]; the three placeholders stand for the
    [<div class=loading>] markup assigned by [loadMap], [loadChart] and
    [loadTable]. *)
Inductive Content :=
| Original
| LoadingMap
| LoadingChart
| LoadingTable.

(** [element.dataset.lazy], [element.dataset.src] and [element.innerHTML]. *)
Record Element := mkElement {
  lazy : option string;
  src : option string;
  innerHTML : Content
}.

(** The document.  [elements] holds the elements by identity, whether
    they are still in the document or have been removed from it; [order]
    lists the elements that are in the document, in document order;
    [nested n] lists the elements nested in [n], at any depth, as the
    document was parsed.  Nothing here puts an element back into the
    document. *)
Record Page := mkPage {
  elements : gmap Node Element;
  order : list Node;
  nested : Node → list Node
}.

(** An [IntersectionObserverEntry], as far as the callback reads it. *)
Record Entry := mkEntry { target : Node; isIntersecting : bool }.

(** The loader and the world it acts on.  [observer] is [this.observer]
    ([None] for [null]), holding the targets the browser watches for it.
    [loads] lists the arguments of the calls of [loadComponent], oldest
    first; [fetches] lists the requests of [loadGeneric]. *)
Record State := mkState {
  page : Page;
  observer : option (gset Node);
  loads : list Node;
  fetches : list (Node * string)
}.

(** [element.innerHTML = ...]: the element gets the new markup, and the
    elements that were nested in it leave the document. *)
Definition set_content (n : Node) (c : Content) (p : Page) : Page :=
  {| elements := alter (λ e, {| lazy := lazy e; src := src e; innerHTML := c |}) n
                   (elements p);
     order := filter (λ m, m ∉ nested p n) (order p);
     nested := nested p |}.

(** [document.querySelectorAll('[data-lazy]')], in document order. *)
Definition lazyElements (p : Page) : list Node :=
  filter (λ n, is_Some (elements p !! n ≫= lazy)) (order p).

(** [loadGeneric(element)]: [if (src)] fails for a missing attribute and
    for the empty string; otherwise the request goes out now and the
    markup arrives with the response. *)
Definition loadGeneric (n : Node) (s : State) : State :=
  match elements (page s) !! n ≫= src with
  | Some EmptyString | None => s
  | Some url =>
      {| page := page s; observer := observer s; loads := loads s;
         fetches := fetches s ++ [(n, url)] |}
  end.

Definition show (n : Node) (c : Content) (s : State) : State :=
  {| page := set_content n c (page s); observer := observer s;
     loads := loads s; fetches := fetches s |}.

(** [loadMap(element)], [loadChart(element)] and [loadTable(element)]. *)
Definition loadMap (n : Node) (s : State) : State := show n LoadingMap s.

Definition loadChart (n : Node) (s : State) : State := show n LoadingChart s.

Definition loadTable (n : Node) (s : State) : State := show n LoadingTable s.

(** [loadComponent(element)]: the [switch] on [element.dataset.lazy]. *)
Definition loadComponent (n : Node) (s : State) : State :=
  let s := {| page := page s; observer := observer s;
              loads := loads s ++ [n]; fetches := fetches s |} in
  match elements (page s) !! n ≫= lazy with
  | Some "map"%string => loadMap n s
  | Some "chart"%string => loadChart n s
  | Some "table"%string => loadTable n s
  | _ => loadGeneric n s
  end.

(** [this.observer.observe(el)] and [this.observer.unobserve(el)]. *)
Definition observe (n : Node) (s : State) : State :=
  {| page := page s; observer := (λ o, {[n]} ∪ o) <$> observer s;
     loads := loads s; fetches := fetches s |}.

Definition unobserve (n : Node) (s : State) : State :=
  {| page := page s; observer := (λ o, o ∖ {[n]}) <$> observer s;
     loads := loads s; fetches := fetches s |}.

(** The observer callback: [entries.forEach(entry => ...)]. *)
Definition on_entry (s : State) (e : Entry) : State :=
  if isIntersecting e then unobserve (target e) (loadComponent (target e) s) else s.

Definition callback (entries : list Entry) (s : State) : State :=
  fold_left on_entry entries s.

Definition observeElements (s : State) : State :=
  fold_left (λ s n, observe n s) (lazyElements (page s)) s.

Definition loadAllComponents (s : State) : State :=
  fold_left (λ s n, loadComponent n s) (lazyElements (page s)) s.

(** [new LazyLoader()]: the constructor and [init()].  [supported] is
    ['IntersectionObserver' in window]. *)
Definition init (supported : bool) (p : Page) : State :=
  let s := {| page := p; observer := None; loads := []; fetches := [] |} in
  if supported
  then observeElements
         {| page := page s; observer := Some ∅; loads := loads s; fetches := fetches s |}
  else loadAllComponents s.

Definition observed (s : State) : gset Node := default ∅ (observer s).

(** The browser's side: a batch handed to the callback reports targets
    the observer is watching at that moment, each of them once. *)
Definition deliverable (s : State) (entries : list Entry) : Prop :=
  (∀ e, e ∈ entries → target e ∈ observed s) ∧ NoDup (target <$> entries).

(** The states a loader goes through on a browser with
    [IntersectionObserver]: construction, then callbacks. *)
Inductive reachable (p : Page) : State → Prop :=
| reach_init : reachable p (init true p)
| reach_callback s entries :
    reachable p s → deliverable s entries → reachable p (callback entries s).

(** The targets a batch reports as intersecting, in the order of the
    batch. *)
Definition intersecting (entries : list Entry) : list Node :=
  target <$> filter (λ e, isIntersecting e = true) entries.

(** A batch that reports as intersecting only targets the observer is
    watching, and none of them twice.  The first is the browser's doing; the
    second holds when the callback runs before a target has left the view
    and come back. *)
Definition reported_once (s : State) (entries : list Entry) : Prop :=
  (∀ n, n ∈ intersecting entries → n ∈ observed s)
  ∧ NoDup (intersecting entries).

(** The states a loader goes through when every batch is of this kind. *)
Inductive observing (p : Page) : State → Prop :=
| observing_init : observing p (init true p)
| observing_callback s entries :
    observing p s → reported_once s entries → observing p (callback entries s).
End LazyLoader.

(** ** PerformanceMonitor: sampling 10% of the page loads *)

Module PerformanceMonitor.
Record PageLoad := mkPageLoad {
  domContentLoaded : Q;
  loadComplete : Q;
  totalTime : Q
}.

Record Interaction := mkInteraction {
  type : string;
  responseTime : Q;
  element : string;
  timestamp : Z
}.

(** [this.metrics]: a property that was never assigned is [None]. *)
Record Metrics := mkMetrics {
  pageLoad : option PageLoad;
  largestContentfulPaint : option Q;
  interactions : option (list Interaction)
}.

(** The object handed to [JSON.stringify], and the [fetch] call. *)
Record Body := mkBody { body_metrics : Metrics; body_timestamp : Z; body_url : string }.

Record Request := mkRequest {
  url : string;
  method : string;
  headers : list (string * string);
  body : Body
}.

(** The monitor and the requests it has issued, oldest first. *)
Record State := mkState { metrics : Metrics; sent : list Request }.

Definition new : State :=
  {| metrics := {| pageLoad := None; largestContentfulPaint := None;
                   interactions := None |};
     sent := [] |}.

(** The literal [0.1] denotes the binary64 number nearest to one tenth,
    [0x1.999999999999ap-4]; comparison of two binary64 numbers is exact,
    so it is the comparison of the rationals they denote. *)
Definition threshold : Q := 3602879701896397 # 36028797018963968.

(** [reportMetrics()], with [draw] the value of [Math.random()], [now] the
    value of [Date.now()] and [href] the value of [window.location.href]. *)
Definition reportMetrics (draw : Q) (now : Z) (href : string) (s : State) : State :=
  if Qlt_le_dec draw threshold
  then {| metrics := metrics s;
          sent := sent s ++
            [ {| url := "/api/v1/performance-metrics";
                 method := "POST";
                 headers := [("Content-Type", "application/json")];
                 body := {| body_metrics := metrics s; body_timestamp := now;
                            body_url := href |} |} ] |}
  else s.

(** [getMetrics()]. *)
Definition getMetrics (s : State) : Metrics := metrics s.

(** [recordInteraction(type, responseTime, element)], [tag] being
    [element.tagName]. *)
Definition recordInteraction (ty : string) (rt : Q) (tag : string) (now : Z)
    (s : State) : State :=
  let m := metrics s in
  {| metrics := {| pageLoad := pageLoad m;
                   largestContentfulPaint := largestContentfulPaint m;
                   interactions :=
                     Some (default [] (interactions m) ++
                           [ {| type := ty; responseTime := rt; element := tag;
                                timestamp := now |} ]) |};
     sent := sent s |}.

(** The [load] listener of [measurePageLoad]. *)
Definition onLoad (pl : PageLoad) (draw : Q) (now : Z) (href : string)
    (s : State) : State :=
  let m := metrics s in
  reportMetrics draw now href
    {| metrics := {| pageLoad := Some pl;
                     largestContentfulPaint := largestContentfulPaint m;
                     interactions := interactions m |};
       sent := sent s |}.

(** The observer of [setupPerformanceObserver]: the last
    largest-contentful-paint entry of the list wins. *)
Definition onPaintEntries (startTimes : list Q) (s : State) : State :=
  fold_left (λ s st,
    let m := metrics s in
    {| metrics := {| pageLoad := pageLoad m; largestContentfulPaint := Some st;
                     interactions := interactions m |};
       sent := sent s |}) startTimes s.
(** What the browser delivers to the monitor's listeners.  [Load]: the
    [load] event, with the timings read off the navigation entry, [None]
    when [performance.getEntriesByType('navigation')] is empty, and the
    values of [Math.random()], [Date.now()] and [window.location.href].
    [Click]: the animation frame that follows a click, with
    [performance.now() - startTime], [event.target.tagName] and
    [Date.now()].  [Paint]: a call of the performance observer with the
    start times of the entries of its list. *)
Inductive BrowserEvent :=
| Load (pl : option PageLoad) (draw : Q) (now : Z) (href : string)
| Click (rt : Q) (tag : string) (now : Z)
| Paint (startTimes : list Q).

(** The three listeners that [init()] installs.  Reading a property of the
    missing navigation entry throws, which ends the [load] listener before
    it stores or reports anything; the observer exists only when
    ['PerformanceObserver' in window], which [supported] stands for. *)
Definition handle (supported : bool) (s : State) (ev : BrowserEvent) : State :=
  match ev with
  | Load (Some pl) draw now href => onLoad pl draw now href s
  | Load None _ _ _ => s
  | Click rt tag now => recordInteraction "click" rt tag now s
  | Paint startTimes => if supported then onPaintEntries startTimes s else s
  end.

(** The monitor after the events of a visit, oldest first. *)
Definition session (supported : bool) (evs : list BrowserEvent) (s : State) : State :=
  fold_left (handle supported) evs s.

(** [displayMetrics()]: the console calls between [console.group] and
    [console.groupEnd], with [this.metrics.interactions?.length || 0]. *)
Inductive ConsoleCall :=
| LogPageLoad (v : option PageLoad)
| LogLargestContentfulPaint (v : option Q)
| LogInteractions (n : nat).

Definition displayMetrics (s : State) : list ConsoleCall :=
  [ LogPageLoad (pageLoad (metrics s));
    LogLargestContentfulPaint (largestContentfulPaint (metrics s));
    LogInteractions (from_option length 0%nat (interactions (metrics s))) ].

(** [String.prototype.includes]. *)
Definition includes (needle hay : string) : bool :=
  match index 0 needle hay with Some _ => true | None => false end.

(** The end of the script: the timers set when the page is loaded with
    query string [search], as pairs of a delay in milliseconds and the
    call to make. *)
Inductive Timed := DisplayMetrics.

Definition debug_timers (search : string) : list (Z * Timed) :=
  if includes "debug=performance" search then [(5000, DisplayMetrics)] else [].
End PerformanceMonitor.

(** ** The data pipeline

    The pipeline ([data_pipeline.py], [data_validator.py] and the modules
    they drive) is described by the project documentation; the definitions
    of this module follow that description, component by component. *)

Module Pipeline.

(** *** Data model *)

(** Modelled from the spec: the error taxonomy of the pipeline. *)
Inductive Error :=
| SourceUnavailable
| SchemaMismatch
| MalformedInput
| ScoringFailure
| ValidationError
| BackupUnavailable
| PersistFailure
| Timeout
| Cancelled.

#[global] Instance Error_eq_dec : EqDecision Error.
Proof. solve_decision. Defined.

(** Modelled from the spec: the classification of failures, which the
    orchestrator of [data_pipeline.py] applies.  Transient failures (a
    source that cannot be read, a timeout) are retried; all other failures
    of a stage halt the run. *)
Definition retryable (e : Error) : bool :=
  match e with
  | SourceUnavailable | Timeout => true
  | _ => false
  end.

(** Modelled from the spec: the two severities of a rule. *)
Inductive Severity := SevError | SevWarning.

#[global] Instance Severity_eq_dec : EqDecision Severity.
Proof. solve_decision. Defined.

(** Modelled from the spec: the risk categories of [risk_categorizer.py]. *)
Inductive RiskCategory := Low | Medium | High.

(** Modelled from the spec: whether the address lookup resolved. *)
Inductive Confidence := Resolved | Unresolved.

(** Modelled from the spec: the records of [data_pipeline.py], one per
    establishment-inspection observation.  Dates in canonical form
    are the number [10000 * year + 100 * month + day], whose order is the
    order of the calendar.  [risk_score] and [risk_category] are [None]
    until the record is modelled; [failure] is the per-record failure that
    excludes the record from persistence, if any. *)
Record InspectionRecord := mkRecord {
  identifier : string;
  name : string;
  address : string;
  address_normalized : option string;
  address_confidence : Confidence;
  category : string;
  theme : string;
  size_class : string;
  history_count : Z;
  history_severity : Q;
  amount_text : string;
  amount : option Q;
  status : string;
  status_date_text : string;
  status_date : option Z;
  risk_score : option Q;
  risk_category : option RiskCategory;
  failure : option Error
}.

(** Modelled from the spec: a batch, the ordered records of one run. *)
Definition Batch := list InspectionRecord.

(** Modelled from the spec: the durable store, a table keyed by record
    identifier. *)
Abbreviation Store := (gmap string InspectionRecord).

(** Modelled from the spec: the two updates of a record by the stages,
    marking it failed and giving it its risk score and category. *)
Definition with_failure (e : Error) (r : InspectionRecord) : InspectionRecord :=
  mkRecord (identifier r) (name r) (address r) (address_normalized r)
    (address_confidence r) (category r) (theme r) (size_class r)
    (history_count r) (history_severity r) (amount_text r) (amount r)
    (status r) (status_date_text r) (status_date r) (risk_score r)
    (risk_category r) (Some e).

Definition with_risk (s : Q) (c : RiskCategory) (r : InspectionRecord)
    : InspectionRecord :=
  mkRecord (identifier r) (name r) (address r) (address_normalized r)
    (address_confidence r) (category r) (theme r) (size_class r)
    (history_count r) (history_severity r) (amount_text r) (amount r)
    (status r) (status_date_text r) (status_date r) (Some s) (Some c) (failure r).

(** *** Validation rules *)

(** Modelled from the spec: the attributes a rule can name, and the value
    a record has for each; an empty text is a missing value. *)
Inductive Field :=
| FName | FAddress | FCategory | FTheme | FSizeClass | FAmount | FStatus
| FStatusDate | FHistoryCount | FRiskScore | FRiskCategory.

Inductive Value :=
| VMissing
| VText (s : string)
| VNumber (q : Q).

Definition text_value (s : string) : Value :=
  match s with EmptyString => VMissing | _ => VText s end.

Definition number_value (o : option Q) : Value :=
  match o with Some q => VNumber q | None => VMissing end.

Definition category_name (c : RiskCategory) : string :=
  match c with Low => "low" | Medium => "medium" | High => "high" end.

Definition field_value (f : Field) (r : InspectionRecord) : Value :=
  match f with
  | FName => text_value (name r)
  | FAddress => text_value (address r)
  | FCategory => text_value (category r)
  | FTheme => text_value (theme r)
  | FSizeClass => text_value (size_class r)
  | FAmount => number_value (amount r)
  | FStatus => text_value (status r)
  | FStatusDate => text_value (status_date_text r)
  | FHistoryCount => VNumber (inject_Z (history_count r))
  | FRiskScore => number_value (risk_score r)
  | FRiskCategory =>
      match risk_category r with
      | Some c => VText (category_name c)
      | None => VMissing
      end
  end.

(** Modelled from the spec: the rules of [data_validator.py], of four
    kinds, each with its parameters. *)
Inductive RuleKind :=
| RequiredField (f : Field)
| Range (f : Field) (lo hi : Q)
| Enumeration (f : Field) (allowed : list string)
| DateFormat (f : Field).

(** Modelled from the spec: a rule, a named predicate with a severity, a
    description and an optional effective-date range (both ends included). *)
Record ValidationRule := mkRule {
  rule_name : string;
  severity : Severity;
  description : string;
  kind : RuleKind;
  effective : option (Z * Z)
}.

(** Modelled from the spec: the [PipelineConfig] of [data_pipeline.py]. *)
Record PipelineConfig := mkConfig {
  source_data_path : string;
  output_db_path : string;
  backup_enabled : bool;
  max_retries : nat;
  batch_size : nat;
  rule_set : list ValidationRule
}.

(** *** Text and number formats

    Modelled from the spec: the formats the Cleaner normalizes, decimal
    amounts and [YYYY-MM-DD] dates. *)

Definition digit (c : ascii) : option Z :=
  let n := Z.of_nat (nat_of_ascii c) in
  if (48 <=? n) && (n <=? 57) then Some (n - 48) else None.

Fixpoint digits (s : string) (acc : Z) : option Z :=
  match s with
  | EmptyString => Some acc
  | String c s' =>
      match digit c with
      | Some d => digits s' (10 * acc + d)
      | None => None
      end
  end.

Definition number (s : string) : option Z :=
  match s with EmptyString => None | _ => digits s 0 end.

(** [YYYY-MM-DD], with a month from 1 to 12 and a day from 1 to 31. *)
Definition parse_date (s : string) : option Z :=
  if negb (Nat.eqb (String.length s) 10) then None
  else
    match number (substring 0 4 s), substring 4 1 s,
          number (substring 5 2 s), substring 7 1 s,
          number (substring 8 2 s) with
    | Some y, "-"%string, Some m, "-"%string, Some d =>
        if (1 <=? m) && (m <=? 12) && (1 <=? d) && (d <=? 31)
        then Some (10000 * y + 100 * m + d)
        else None
    | _, _, _, _, _ => None
    end.

(** A monetary amount: digits, optionally followed by a point and more
    digits. *)
Definition parse_amount (s : string) : option Q :=
  match index 0 "." s with
  | None => inject_Z <$> number s
  | Some i =>
      let frac := substring (S i) (String.length s - S i) s in
      match number (substring 0 i s), number frac with
      | Some whole, Some part =>
          Some (Qplus (inject_Z whole)
                  (Qmake part (Pos.pow 10 (Pos.of_nat (String.length frac)))))
      | _, _ => None
      end
  end.

Fixpoint trim_left (s : string) : string :=
  match s with
  | String " "%char s' => trim_left s'
  | _ => s
  end.

Definition reverse (s : string) : string :=
  string_of_list_ascii (rev (list_ascii_of_string s)).

Definition trim (s : string) : string :=
  reverse (trim_left (reverse (trim_left s))).

(** *** Ingestor *)

(** Modelled from the spec: the upstream table: its header and its rows,
    each row giving the text
    of its cells by column. *)
Record Source := mkSource {
  columns : list string;
  rows : list (gmap string string)
}.

Module Ingestor.
Definition required_columns : list string :=
  ["business_id"; "etablissement"; "montant"; "statut"; "date_statut"]%string.

Definition cell (row : gmap string string) (col : string) : string :=
  default EmptyString (row !! col).

Definition raw_record (row : gmap string string) : InspectionRecord :=
  {| identifier := cell row "business_id";
     name := cell row "etablissement";
     address := cell row "adresse";
     address_normalized := None;
     address_confidence := Unresolved;
     category := cell row "categorie";
     theme := EmptyString;
     size_class := cell row "taille";
     history_count := 0;
     history_severity := 0%Q;
     amount_text := cell row "montant";
     amount := None;
     status := cell row "statut";
     status_date_text := cell row "date_statut";
     status_date := None;
     risk_score := None;
     risk_category := None;
     failure := None |}.

(** Modelled from the spec: [load] of [data_ingest.py].  A source that
    cannot be opened ([None]) is [SourceUnavailable]; a header without a
    required column is [SchemaMismatch]; a read is bounded by the batch
    size. *)
Definition load (cfg : PipelineConfig) (src : option Source) : Error + Batch :=
  match src with
  | None => inl SourceUnavailable
  | Some s =>
      if forallb (λ c, bool_decide (c ∈ columns s)) required_columns
      then inr (raw_record <$> take (batch_size cfg) (rows s))
      else inl SchemaMismatch
  end.
End Ingestor.

(** *** Cleaner *)

Module Cleaner.
Definition or_unknown (s : string) : string :=
  match s with EmptyString => "unknown"%string | _ => s end.

(** Modelled from the spec: a required cell; empty is missing (left to
    validation), text that
    does not parse is malformed. *)
Definition parse_cell {A} (parse : string → option A) (s : string)
    : option (option A) :=
  match s with
  | EmptyString => Some None
  | _ => match parse s with Some x => Some (Some x) | None => None end
  end.

(** Modelled from the spec: the cleaning of one record.  Text is trimmed,
    missing optional fields take the default [unknown], the amount and the
    status date are parsed; a record whose amount or date does not parse is
    marked [MalformedInput] and stays in the batch.  The identifier is left
    as it is. *)
Definition clean_record (r : InspectionRecord) : InspectionRecord :=
  let amount_t := trim (amount_text r) in
  let date_t := trim (status_date_text r) in
  let cleaned (a : option Q) (d : option Z) (f : option Error) :=
    {| identifier := identifier r;
       name := trim (name r);
       address := trim (address r);
       address_normalized := address_normalized r;
       address_confidence := address_confidence r;
       category := or_unknown (trim (category r));
       theme := theme r;
       size_class := or_unknown (trim (size_class r));
       history_count := history_count r;
       history_severity := history_severity r;
       amount_text := amount_t;
       amount := a;
       status := trim (status r);
       status_date_text := date_t;
       status_date := d;
       risk_score := risk_score r;
       risk_category := risk_category r;
       failure := f |} in
  match parse_cell parse_amount amount_t, parse_cell parse_date date_t with
  | Some a, Some d => cleaned a d (failure r)
  | _, _ => cleaned None None (Some MalformedInput)
  end.

(** Modelled from the spec: the removal of duplicates.  Exact duplicates
    have the same identifier and the same status date;
    the first of them is kept. *)
Fixpoint dedupe (seen : list (string * option Z)) (b : Batch) : Batch :=
  match b with
  | [] => []
  | r :: b' =>
      let k := (identifier r, status_date r) in
      if bool_decide (k ∈ seen) then dedupe seen b' else r :: dedupe (k :: seen) b'
  end.

(** Modelled from the spec: [clean] of [data_cleaner.py]. *)
Definition clean (b : Batch) : Batch := dedupe [] (clean_record <$> b).
End Cleaner.

(** *** Enricher *)

(** Modelled from the spec: the address dictionary (raw address to
    normalized address) and the theme dictionary (keyword, theme), in the
    order in which keywords are tried. *)
Record Dictionaries := mkDictionaries {
  addresses : gmap string string;
  themes : list (string * string)
}.

Module Enricher.
(** Modelled from the spec: the theme of [theme_dict.py]; the first
    keyword found in the name decides, and no match gives [unknown]. *)
Fixpoint classify (themes : list (string * string)) (name : string) : string :=
  match themes with
  | [] => "unknown"%string
  | (keyword, th) :: rest =>
      match index 0 keyword name with
      | Some _ => th
      | None => classify rest name
      end
  end.

(** Modelled from the spec: the historical aggregate of an establishment,
    looked up in the store under its identifier: count and total severity
    of its prior violations, as its stored record has them; none when the
    store does not know the establishment. *)
Definition history (st : Store) (id : string) : Z * Q :=
  match st !! id with
  | Some prior => (history_count prior, history_severity prior)
  | None => (0, 0%Q)
  end.

(** Modelled from the spec: the enrichment of one record: the normalized
    address (an address the dictionary does not know is left unresolved),
    the theme and the historical aggregate. *)
Definition enrich_record (d : Dictionaries) (st : Store) (r : InspectionRecord)
    : InspectionRecord :=
  let geo := addresses d !! address r in
  {| identifier := identifier r;
     name := name r;
     address := address r;
     address_normalized := geo;
     address_confidence := match geo with Some _ => Resolved | None => Unresolved end;
     category := category r;
     theme := classify (themes d) (name r);
     size_class := size_class r;
     history_count := (history st (identifier r)).1;
     history_severity := (history st (identifier r)).2;
     amount_text := amount_text r;
     amount := amount r;
     status := status r;
     status_date_text := status_date_text r;
     status_date := status_date r;
     risk_score := risk_score r;
     risk_category := risk_category r;
     failure := failure r |}.

(** Modelled from the spec: [enrich], the work of [address_dict.py] and
    [theme_dict.py] on a batch.  It reads the store and the dictionaries
    and fails no record. *)
Definition enrich (b : Batch) (d : Dictionaries) (st : Store) : Batch :=
  enrich_record d st <$> b.
End Enricher.

(** *** RiskModeler *)

Module RiskModeler.
Definition low_threshold : Q := 33 # 100.
Definition medium_threshold : Q := 66 # 100.

(** Modelled from the spec: the thresholds of [risk_categorizer.py],
    low < 0.33 <= medium < 0.66 <= high. *)
Definition categorize (s : Q) : RiskCategory :=
  if Qlt_le_dec s low_threshold then Low
  else if Qlt_le_dec s medium_threshold then Medium
  else High.

(** Modelled from the spec: the scoring of one record.  A record that
    failed an earlier stage is left as it is. *)
Definition score_record (scoringFn : InspectionRecord → option Q) (r : InspectionRecord)
    : InspectionRecord :=
  match failure r with
  | Some _ => r
  | None =>
      match scoringFn r with
      | Some s => with_risk s (categorize s) r
      | None => with_failure ScoringFailure r
      end
  end.

(** Modelled from the spec: [score] of [risk_score.py].  The scoring
    function is injected; a record it cannot score is marked failed and
    the batch goes on. *)
Definition score (b : Batch) (scoringFn : InspectionRecord → option Q) : Batch :=
  score_record scoringFn <$> b.
End RiskModeler.
(** *** Validator *)

(** Modelled from the spec: the per-run aggregate of [data_validator.py]:
    records passed and failed, the number of records
    violating each rule, and the validation rate (passed / total). *)
Record ValidationReport := mkReport {
  passed : nat;
  failed : nat;
  violations_by_rule : list (string * nat);
  validation_rate : Q
}.

(** Modelled from the spec: the records that go to persistence, those
    without a failure. *)
Definition valid_records (b : Batch) : Batch :=
  filter (λ r, failure r = None) b.

Module Validator.
(** Modelled from the spec: effective-dated rules.  A rule applies to the
    records whose observation date falls inside its
    effective-date range; a rule without a range applies to all. *)
Definition in_force (rule : ValidationRule) (r : InspectionRecord) : bool :=
  match effective rule with
  | None => true
  | Some (lo, hi) =>
      match status_date r with
      | Some d => (lo <=? d) && (d <=? hi)
      | None => false
      end
  end.

(** Modelled from the spec: the dispatcher of [data_validator.py], whether
    a record breaks a rule of a given kind.  A
    missing value breaks only [RequiredField]. *)
Definition violates (k : RuleKind) (r : InspectionRecord) : bool :=
  match k with
  | RequiredField f =>
      match field_value f r with VMissing => true | _ => false end
  | Range f lo hi =>
      match field_value f r with
      | VNumber q => negb (Qle_bool lo q && Qle_bool q hi)
      | VText _ => true
      | VMissing => false
      end
  | Enumeration f allowed =>
      match field_value f r with
      | VText s => negb (bool_decide (s ∈ allowed))
      | VNumber _ => true
      | VMissing => false
      end
  | DateFormat f =>
      match field_value f r with
      | VText s => match parse_date s with Some _ => false | None => true end
      | VNumber _ => true
      | VMissing => false
      end
  end.

(** Modelled from the spec: a rule fires on a record when it is in force
    at the record's observation date and the record breaks it. *)
Definition fires (rule : ValidationRule) (r : InspectionRecord) : bool :=
  in_force rule r && violates (kind rule) r.

(** Modelled from the spec: the violations a record accumulates. *)
Definition violations (rules : list ValidationRule) (r : InspectionRecord)
    : list ValidationRule :=
  filter (λ rule, fires rule r = true) rules.

Definition is_error (rule : ValidationRule) : bool :=
  bool_decide (severity rule = SevError).

(** Modelled from the spec: the marking of [data_validator.py].  Any
    violation of error severity marks the record invalid; a record that
    failed an earlier stage keeps that failure. *)
Definition validate_record (rules : list ValidationRule) (r : InspectionRecord)
    : InspectionRecord :=
  match failure r with
  | Some _ => r
  | None =>
      if existsb is_error (violations rules r)
      then with_failure ValidationError r
      else r
  end.

(** Modelled from the spec: the validation rate, passed / total, and 0 for
    an empty batch. *)
Definition rate (p total : nat) : Q :=
  match total with
  | O => 0%Q
  | S _ => Z.of_nat p # Pos.of_nat total
  end.

(** Modelled from the spec: [validate] of [data_validator.py].  Every rule
    is evaluated against every record; the batch comes back with its invalid
    records marked, together with the report. *)
Definition validate (b : Batch) (rules : list ValidationRule)
    : Batch * ValidationReport :=
  let b' := validate_record rules <$> b in
  let ok := length (valid_records b') in
  (b',
   {| passed := ok;
      failed := (length b' - ok)%nat;
      violations_by_rule :=
        (λ rule, (rule_name rule, length (filter (λ r, fires rule r = true) b))) <$> rules;
      validation_rate := rate ok (length b') |}).
End Validator.

(** *** The journal of a run *)

(** Modelled from the spec: the six stages of a run. *)
Inductive Stage := Ingesting | Cleaning | Enriching | Modeling | Validating | Persisting.

#[global] Instance Stage_eq_dec : EqDecision Stage.
Proof. solve_decision. Defined.

(** Modelled from the spec: the states of the run state machine. *)
Inductive RunState :=
| Idle
| Running (s : Stage)
| Succeeded
| PartiallySucceeded
| Failed.

#[global] Instance RunState_eq_dec : EqDecision RunState.
Proof. solve_decision. Defined.

(** Modelled from the spec: the log of [data_pipeline.py], what a run does
    in order: its transitions, the attempts of its stages
    (numbered from 0, with the failure that ended them, if any), and its
    actions on the store and on the backup. *)
Inductive Event :=
| Entered (st : RunState)
| Attempt (s : Stage) (k : nat) (outcome : option Error)
| SnapshotTaken
| SnapshotFailed
| Written (id : string)
| Restored
| RolledBack.

#[global] Instance Event_eq_dec : EqDecision Event.
Proof. solve_decision. Defined.

(** *** BackupManager *)

(** Modelled from the spec: a backup artifact, the copy of the store taken
    by [snapshot]. *)
Record BackupHandle := mkHandle { saved : Store }.

Module BackupManager.
(** Modelled from the spec: [snapshot] of the backup step of
    [data_pipeline.py]; [reachable] tells whether the backup medium can be
    written. *)
Definition snapshot (reachable : bool) (st : Store) : Error + BackupHandle :=
  if reachable then inr {| saved := st |} else inl BackupUnavailable.

(** Modelled from the spec: [restore] of the backup step of
    [data_pipeline.py]: the store becomes the copy again. *)
Definition restore (h : BackupHandle) (st : Store) : Store := saved h.
End BackupManager.

(** *** Persister *)

(** Modelled from the spec: the result of [persist]: all [n] records
    written, or a failure after [n] writes. *)
Inductive PersistResult :=
| Persisted (n : nat)
| PartialWrite (n : nat).

Module Persister.
(** Modelled from the spec: insert-or-update keyed by record identifier. *)
Definition upsert (r : InspectionRecord) (st : Store) : Store :=
  <[identifier r := r]> st.

(** Modelled from the spec: the writes of a batch, in order.  [fault] is
    the position of the write
    that fails, if one does: the writes before it have reached the store,
    the others have not. *)
Fixpoint write_all (rs : list InspectionRecord) (fault : option nat) (st : Store)
    : PersistResult * Store * list Event :=
  match rs with
  | [] => (Persisted 0, st, [])
  | r :: rs' =>
      match fault with
      | Some O => (PartialWrite 0, st, [])
      | _ =>
          let '(res, st', ev) := write_all rs' (Nat.pred <$> fault) (upsert r st) in
          (match res with
           | Persisted n => Persisted (S n)
           | PartialWrite n => PartialWrite (S n)
           end, st', Written (identifier r) :: ev)
      end
  end.

(** Modelled from the spec: [persist], the save step of [data_pipeline.py]:
    the valid records of the batch are written to the destination. *)
Definition persist (b : Batch) (dest : Store) (fault : option nat)
    : PersistResult * Store * list Event :=
  write_all (valid_records b) fault dest.
End Persister.

(** *** PipelineOrchestrator *)

(** Modelled from the spec: one exclusion of the run report: the record,
    the reason, and for a validation error the
    rules of error severity it broke. *)
Record Exclusion := mkExclusion {
  excluded_id : string;
  reason : Error;
  broken_rules : list string
}.

(** Modelled from the spec: the run report of [data_pipeline.py]: final
    status, journal (transitions, attempts per stage, store actions),
    validation report, exclusions, number of records persisted, and the
    stage and error that halted the run, if any.  Timestamps and durations
    are left out. *)
Record PipelineRunReport := mkRunReport {
  final_status : RunState;
  journal : list Event;
  validation : option ValidationReport;
  exclusions : list Exclusion;
  persisted : nat;
  failed_at : option (Stage * Error)
}.

(** Modelled from the spec: what surrounds a run: the content of the
    source ([None] when it cannot
    be opened), the dictionaries, the scoring function, and what goes wrong
    during the run: the transient failure, if any, that hits attempt [k] of
    a stage; whether the backup medium is reachable; the position of the
    write that fails, if one does. *)
Record Env := mkEnv {
  source : option Source;
  dictionaries : Dictionaries;
  scoringFn : InspectionRecord → option Q;
  faults : Stage → nat → option Error;
  backup_reachable : bool;
  write_fault : option nat
}.

(** Modelled from the spec: what a run returns and leaves behind. *)
Record RunResult := mkResult {
  report : PipelineRunReport;
  store : Store
}.

(** Modelled from the spec: a computation of the processing stages: its
    journal, and its result or
    the stage and error that halted it. *)
Definition Staged (A : Type) : Type := list Event * (Stage * Error + A).

Definition bind {A B} (m : Staged A) (f : A → Staged B) : Staged B :=
  match m with
  | (j, inl e) => (j, inl e)
  | (j, inr a) => let '(j', r) := f a in (j ++ j', r)
  end.

Module PipelineOrchestrator.
(** Modelled from the spec: the retry loop of [data_pipeline.py]: the
    attempts of a stage, from attempt [k] on, with [budget] retries
    left.  An attempt fails with the transient failure that hits it, or else
    as the body of the stage does; a retryable failure is retried while the
    budget lasts. *)
Fixpoint attempts {A} (s : Stage) (hit : nat → option Error) (body : Error + A)
    (budget k : nat) : Staged A :=
  match (match hit k with Some e => inl e | None => body end) with
  | inr a => ([Attempt s k None], inr a)
  | inl e =>
      match budget with
      | S budget' =>
          if retryable e
          then let '(j, r) := attempts s hit body budget' (S k) in
               (Attempt s k (Some e) :: j, r)
          else ([Attempt s k (Some e)], inl (s, e))
      | O => ([Attempt s k (Some e)], inl (s, e))
      end
  end.

(** Modelled from the spec: the retry policy of the orchestrator of
    [data_pipeline.py]: a stage is entered, tried, and retried up to
    [max_retries] times. *)
Definition run_stage {A} (cfg : PipelineConfig) (env : Env) (s : Stage)
    (body : Error + A) : Staged A :=
  let '(j, r) := attempts s (faults env s) body (max_retries cfg) 0 in
  (Entered (Running s) :: j, r).

(** Modelled from the spec: the five processing stages of
    [data_pipeline.py], in sequence; the first that halts ends them. *)
Definition process (cfg : PipelineConfig) (env : Env) (st : Store)
    : Staged (Batch * ValidationReport) :=
  bind (run_stage cfg env Ingesting (Ingestor.load cfg (source env))) (λ b,
  bind (run_stage cfg env Cleaning (inr (Cleaner.clean b))) (λ b,
  bind (run_stage cfg env Enriching (inr (Enricher.enrich b (dictionaries env) st))) (λ b,
  bind (run_stage cfg env Modeling (inr (RiskModeler.score b (scoringFn env)))) (λ b,
  run_stage cfg env Validating (inr (Validator.validate b (rule_set cfg))))))).

(** Modelled from the spec: the entry of the report for an excluded
    record. *)
Definition exclusion_of (rules : list ValidationRule) (r : InspectionRecord)
    : option Exclusion :=
  match failure r with
  | None => None
  | Some e =>
      Some {| excluded_id := identifier r;
              reason := e;
              broken_rules :=
                match e with
                | ValidationError =>
                    rule_name <$> filter (λ v, Validator.is_error v = true)
                                    (Validator.violations rules r)
                | _ => []
                end |}
  end.

Definition exclusions_of (rules : list ValidationRule) (b : Batch) : list Exclusion :=
  omap (exclusion_of rules) b.

(** Modelled from the spec: the result of a run that fails: the store is
    the one given, nothing is counted as persisted. *)
Definition halted (j : list Event) (v : option ValidationReport) (ex : list Exclusion)
    (at_ : Stage * Error) (st : Store) : RunResult :=
  {| report := {| final_status := Failed;
                  journal := Entered Idle :: j ++ [Entered Failed];
                  validation := v;
                  exclusions := ex;
                  persisted := 0;
                  failed_at := Some at_ |};
     store := st |}.

(** Modelled from the spec: the Persisting stage of [data_pipeline.py].
    With backups enabled the snapshot comes first,
    and a failed write is undone by restoring it; without them a failed
    write is undone by the store, whose batch writes are transactional. *)
Definition persisting (cfg : PipelineConfig) (env : Env) (j : list Event)
    (b : Batch) (v : ValidationReport) (st : Store) : RunResult :=
  let ex := exclusions_of (rule_set cfg) b in
  let j := j ++ [Entered (Running Persisting)] in
  let write (h : option BackupHandle) (j : list Event) :=
    match Persister.persist b st (write_fault env) with
    | (Persisted n, st', ev) =>
        let final := match ex with [] => Succeeded | _ => PartiallySucceeded end in
        {| report := {| final_status := final;
                        journal := Entered Idle :: j ++ ev ++ [Entered final];
                        validation := Some v;
                        exclusions := ex;
                        persisted := n;
                        failed_at := None |};
           store := st' |}
    | (PartialWrite _, st', ev) =>
        match h with
        | Some h =>
            halted (j ++ ev ++ [Restored]) (Some v) ex (Persisting, PersistFailure)
              (BackupManager.restore h st')
        | None =>
            halted (j ++ ev ++ [RolledBack]) (Some v) ex (Persisting, PersistFailure) st
        end
    end in
  if backup_enabled cfg then
    match BackupManager.snapshot (backup_reachable env) st with
    | inl e => halted (j ++ [SnapshotFailed]) (Some v) ex (Persisting, e) st
    | inr h => write (Some h) (j ++ [SnapshotTaken])
    end
  else write None j.

(** Modelled from the spec: the batch as it stands when stage [s] is
    entered, which is what the stages before [s] have made of the source.
    The batch is mutated in place from stage to stage, so this is the batch
    that a run halted in [s] has to account for in its report. *)
Definition batch_at (cfg : PipelineConfig) (env : Env) (st : Store) (s : Stage)
    : Batch :=
  match Ingestor.load cfg (source env) with
  | inl _ => []
  | inr b0 =>
      let b1 := Cleaner.clean b0 in
      let b2 := Enricher.enrich b1 (dictionaries env) st in
      let b3 := RiskModeler.score b2 (scoringFn env) in
      match s with
      | Ingesting => []
      | Cleaning => b0
      | Enriching => b1
      | Modeling => b2
      | Validating => b3
      | Persisting => (Validator.validate b3 (rule_set cfg)).1
      end
  end.

(** Modelled from the spec: [run] of the orchestrator of
    [data_pipeline.py].  A run that halts in a processing stage fails; a run
    whose validation leaves no valid record fails; otherwise the run goes on
    to Persisting.  Whatever its status, a run yields a complete report,
    with an entry for every record excluded for any reason: a run halted in
    a stage lists the records excluded when it halted. *)
Definition run (cfg : PipelineConfig) (env : Env) (st : Store) : RunResult :=
  match process cfg env st with
  | (j, inl at_) =>
      halted j None (exclusions_of (rule_set cfg) (batch_at cfg env st at_.1)) at_ st
  | (j, inr (b, v)) =>
      match valid_records b with
      | [] => halted j (Some v) (exclusions_of (rule_set cfg) b)
                (Validating, ValidationError) st
      | _ :: _ => persisting cfg env j b v st
      end
  end.

(** Modelled from the spec: the attempts recorded for a stage in the
    report, and its retry count. *)
Definition attempts_of (s : Stage) (j : list Event) : list (nat * option Error) :=
  omap (λ ev, match ev with
              | Attempt s' k o => if decide (s' = s) then Some (k, o) else None
              | _ => None
              end) j.

Definition retry_count (s : Stage) (j : list Event) : nat :=
  Nat.pred (length (attempts_of s j)).
End PipelineOrchestrator.
End Pipeline.

(** ** The dashboard launcher ([ouvrir_dashboard.bat]) *)

Module Launcher.
(** The commands the script runs besides [echo]. *)
Inductive Command :=
| Python (script : string)
| Start (file : string)
| Pause.

(** The files of the working directory, and the commands run so far. *)
Record State := mkState { files : gset string; trace : list Command }.

(** What running a script with [python] does to the working directory is
    not the launcher's business: it may create the dashboard, create other
    files, or fail. *)
Definition Generator := string → gset string → gset string.

(** [if exist "file" (echo ...) else (echo ... & python script)]. *)
Definition ensure (gen : Generator) (file script : string) (s : State) : State :=
  if decide (file ∈ files s) then s
  else {| files := gen script (files s); trace := trace s ++ [Python script] |}.

Definition start (file : string) (s : State) : State :=
  {| files := files s; trace := trace s ++ [Start file] |}.

Definition pause (s : State) : State :=
  {| files := files s; trace := trace s ++ [Pause] |}.

Definition dashboard : string := "mapaq_dashboard.html".

Definition unified : string := "unified_mapaq_track_c_dashboard.html".

Definition ouvrir_dashboard (gen : Generator) (fs : gset string) : State :=
  let s := {| files := fs; trace := [] |} in
  let s := ensure gen dashboard "frontend_dashboard_mapaq.py" s in
  let s := ensure gen unified "integration_track_c_components_robuste.py" s in
  let s := start dashboard s in
  let s := start unified s in
  pause s.
End Launcher.

(* ===================================================================== *)
(** * Part II: theorems                                                   *)
(* ===================================================================== *)

(** ** APICache *)

Module APICacheSpec.
Import APICache.
Section Cache.
Context {K : Type} `{Countable K} {D : Type}.
Implicit Types (c : t K D) (h : list (Z * Op K D)) (key : K).

(** What [get] does on each of its three paths. *)
Lemma get_absent now key c :
  cache c !! key = None → get now key c = (None, c).
Proof. intros E. unfold get. by rewrite E. Qed.

Lemma get_fresh now key c item :
  cache c !! key = Some item → now - timestamp item <= maxAge c →
  get now key c = (Some (data item), c).
Proof.
  intros E Hage. unfold get. rewrite E.
  destruct (Z.ltb_spec (maxAge c) (now - timestamp item)); [lia | done].
Qed.

Lemma get_expired now key c item :
  cache c !! key = Some item → maxAge c < now - timestamp item →
  get now key c = (None, {| cache := delete key (cache c); maxAge := maxAge c |}).
Proof.
  intros E Hage. unfold get. rewrite E.
  destruct (Z.ltb_spec (maxAge c) (now - timestamp item)); [done | lia].
Qed.

Lemma set_lookup now key d c :
  cache (set now key d c) !! key = Some {| data := d; timestamp := now |}.
Proof. cbn. apply lookup_insert_eq. Qed.

Lemma get_maxAge now key c : maxAge (snd (get now key c)) = maxAge c.
Proof. unfold get. repeat case_match; done. Qed.

Lemma step_maxAge now op c : maxAge (step now op c) = maxAge c.
Proof. destruct op; cbn; [apply get_maxAge | done]. Qed.

Lemma replay_maxAge h c : maxAge (replay h c) = maxAge c.
Proof.
  revert c. induction h as [|[now op] h IH]; intros c; cbn; [done|].
  by rewrite IH, step_maxAge.
Qed.

(** A [get] that answers [null] leaves no entry under the key. *)
Lemma get_null_absent now key c :
  fst (get now key c) = None → cache (snd (get now key c)) !! key = None.
Proof.
  unfold get. destruct (cache c !! key) as [item|] eqn:E; cbn; [|done].
  destruct (maxAge c <? now - timestamp item); cbn; [|done].
  intros _. apply lookup_delete_eq.
Qed.

(** How the stored entry of [key] relates to the last [set] on it: either
    it is that item, or a [get] at a time no later than [tl] found the item
    expired and removed it. *)
Definition coherent key (tl : Z) c (acc : option (Item D)) : Prop :=
  match cache c !! key with
  | Some item => acc = Some item
  | None =>
      match acc with
      | None => True
      | Some item => maxAge c < tl - timestamp item
      end
  end.

Definition starts_after (tl : Z) h : Prop :=
  match h with [] => True | (t0, _) :: _ => tl <= t0 end.

Lemma coherent_later key tl tl' c acc :
  tl <= tl' → coherent key tl c acc → coherent key tl' c acc.
Proof.
  unfold coherent. intros Hle.
  destruct (cache c !! key); [done|]. destruct acc; [lia | done].
Qed.

Lemma coherent_step key tl now op c acc :
  tl <= now → coherent key tl c acc →
  coherent key now (step now op c)
    (match op with
     | CallSet key' d =>
         if decide (key = key') then Some {| data := d; timestamp := now |} else acc
     | CallGet _ => acc
     end).
Proof.
  intros Hle Hc. destruct op as [key'|key' d]; cbn.
  - unfold get. destruct (cache c !! key') as [item|] eqn:E; cbn;
      [|by eapply coherent_later].
    destruct (Z.ltb_spec (maxAge c) (now - timestamp item)); cbn;
      [|by eapply coherent_later].
    unfold coherent in *; cbn. destruct (decide (key = key')) as [->|Hne].
    + rewrite lookup_delete_eq. rewrite E in Hc. by subst acc.
    + rewrite lookup_delete_ne by done.
      destruct (cache c !! key); [done|]. destruct acc; [lia | done].
  - unfold coherent in *; cbn. destruct (decide (key = key')) as [->|Hne].
    + by rewrite lookup_insert_eq.
    + rewrite lookup_insert_ne by done.
      destruct (cache c !! key); [done|]. destruct acc; [lia | done].
Qed.

Lemma chronological_cons t0 op h now :
  chronological ((t0, op) :: h) now = true →
  t0 <= now ∧ starts_after t0 h ∧ chronological h now = true.
Proof.
  revert t0 op. induction h as [|[t1 op1] h IH]; intros t0 op; cbn.
  - intros Hle. apply Z.leb_le in Hle. done.
  - intros [Hle Hrest]%andb_true_iff. apply Z.leb_le in Hle.
    destruct (IH t1 op1 Hrest) as (? & ? & ?). split_and!; [lia | done | done].
Qed.

Lemma coherent_new key tl arg : coherent key tl (new arg) None.
Proof. unfold coherent, new. cbn [cache]. by rewrite lookup_empty. Qed.

Lemma replay_coherent h : ∀ key tl now c acc,
  coherent key tl c acc → starts_after tl h → tl <= now →
  chronological h now = true →
  coherent key now (replay h c) (last_set key h acc).
Proof.
  induction h as [|[t0 op] h IH]; intros key tl now c acc Hc Hs Hle Hch; cbn.
  - by eapply coherent_later.
  - cbn in Hs. apply chronological_cons in Hch as (Hnow & Hs' & Hch').
    pose proof (coherent_step key tl t0 op c acc Hs Hc) as Hc'.
    destruct op as [key'|key' d]; eapply IH; eauto.
Qed.

(** C8, as amended.  Starting from a fresh cache, after any history of
    [get] and [set] calls whose clock readings never decrease, [get(k)] at
    time [now]
    answers from the most recent [set(k, d)]: it returns [d] when that
    entry is at most [maxAge] milliseconds old, and [null] when [k] was
    never set or the entry is older than [maxAge]; in the expired case the
    entry is gone afterwards, so a further [get(k)] returns [null]
    whatever the clock reads. *)
Theorem get_returns_latest_fresh_entry (arg : option Z) h (now : Z) key :
  chronological h now = true →
  let c := replay h (new arg) in
  match last_set key h None with
  | None => fst (get now key c) = None
  | Some item =>
      (now - timestamp item <= maxAge c → fst (get now key c) = Some (data item))
      ∧ (maxAge c < now - timestamp item →
         fst (get now key c) = None
         ∧ cache (snd (get now key c)) !! key = None
         ∧ ∀ now', get now' key (snd (get now key c)) = (None, snd (get now key c)))
  end.
Proof.
  intros Hch c.
  assert (Hc : coherent key now c (last_set key h None)).
  { destruct h as [|[t0 op] h'].
    - apply coherent_new.
    - pose proof (chronological_cons _ _ _ _ Hch) as (Hle & _ & _).
      apply (replay_coherent _ key t0 now);
        [apply coherent_new | cbn; lia | done | done]. }
  unfold coherent in Hc.
  destruct (cache c !! key) as [stored|] eqn:E.
  - rewrite Hc. split.
    + intros Hage. by rewrite (get_fresh _ _ _ _ E Hage).
    + intros Hage. rewrite (get_expired _ _ _ _ E Hage). cbn.
      split_and!; [done | apply lookup_delete_eq |].
      intros now'. apply get_absent. cbn. apply lookup_delete_eq.
  - rewrite (get_absent _ _ _ E). cbn.
    destruct (last_set key h None) as [item|]; [|done].
    split; [lia|]. intros _. split_and!; [done | done |].
    intros now'. by apply get_absent.
Qed.

(** Without any assumption on the clock: once [get] has answered [null],
    it keeps doing so until the next [set] on the key. *)
Lemma get_null_stays_null now now' key c :
  fst (get now key c) = None → fst (get now' key (snd (get now key c))) = None.
Proof.
  intros Hn. by rewrite (get_absent _ _ _ (get_null_absent _ _ _ Hn)).
Qed.
End Cache.

(** A run of the theorem: two keys, a refresh of the first, and a reading
    taken 300001 ms after the second key was last set. *)
Lemma get_returns_latest_fresh_entry_witness :
  let h := [(0, CallSet "a"%string 1%nat); (10, CallSet "b"%string 2%nat);
            (20, CallGet "a"%string); (30, CallSet "a"%string 3%nat)] in
  chronological h 300011 = true
  ∧ fst (get 300011 "a"%string (replay h (new None))) = Some 3%nat
  ∧ fst (get 300011 "b"%string (replay h (new None))) = None.
Proof.
  intros h. split; [reflexivity|]. split.
  - pose proof (get_returns_latest_fresh_entry None h 300011 "a"%string eq_refl) as Ha.
    vm_compute in Ha. destruct Ha as [Hfresh _]. apply Hfresh. discriminate.
  - pose proof (get_returns_latest_fresh_entry None h 300011 "b"%string eq_refl) as Hb.
    vm_compute in Hb. destruct Hb as [_ Hold]. by apply Hold.
Defined.

(** C8, as stated, fails when the clock steps back.  The entry set at 0 is
    read at 400000, found older than [maxAge] and deleted; a reading taken
    when the clock says 100 finds it gone, although it is then 100 ms old. *)
Lemma stale_reading_finds_entry_gone :
  ¬ (∀ (h : list (Z * Op string nat)) (now : Z) (key : string) (item : Item nat),
       last_set key h None = Some item →
       now - timestamp item <= maxAge (replay h (new None)) →
       fst (get now key (replay h (new None))) = Some (data item)).
Proof.
  intros Hclaim.
  specialize (Hclaim [(0, CallSet "a"%string 1%nat); (400000, CallGet "a"%string)]
                100 "a"%string {| data := 1%nat; timestamp := 0 |}).
  assert (Hget : fst (get 100 "a"%string
                        (replay [(0, CallSet "a"%string 1%nat);
                                 (400000, CallGet "a"%string)]
                           (new (K := string) (D := nat) None))) = None)
    by by vm_compute.
  rewrite Hget in Hclaim. discriminate Hclaim; by vm_compute.
Qed.
End APICacheSpec.

(** ** LazyLoader *)

Module LazyLoaderSpec.
Import LazyLoader.

Lemma loadGeneric_loads n s : loads (loadGeneric n s) = loads s.
Proof. unfold loadGeneric. repeat case_match; done. Qed.

Lemma loadGeneric_observer n s : observer (loadGeneric n s) = observer s.
Proof. unfold loadGeneric. repeat case_match; done. Qed.

(** [loadComponent] is what extends the list of loads, by its argument. *)
Lemma loadComponent_loads n s : loads (loadComponent n s) = loads s ++ [n].
Proof.
  unfold loadComponent.
  repeat case_match; try done; by rewrite loadGeneric_loads.
Qed.

Lemma loadComponent_observer n s : observer (loadComponent n s) = observer s.
Proof.
  unfold loadComponent.
  repeat case_match; try done; by rewrite loadGeneric_observer.
Qed.

Lemma on_entry_skip e s : isIntersecting e = false → on_entry s e = s.
Proof. unfold on_entry. intros E. by rewrite E. Qed.

Lemma on_entry_loads e s :
  isIntersecting e = true → loads (on_entry s e) = loads s ++ [target e].
Proof. unfold on_entry. intros E. rewrite E. cbn. apply loadComponent_loads. Qed.

Lemma on_entry_observed e s :
  isIntersecting e = true → observed (on_entry s e) = observed s ∖ {[target e]}.
Proof.
  unfold on_entry, observed. intros E. rewrite E. cbn. rewrite loadComponent_observer.
  destruct (observer s); cbn; [done|].
  apply set_eq. intros x. rewrite elem_of_difference.
  split; [by intros ?%elem_of_empty | by intros [?%elem_of_empty _]].
Qed.

Lemma observeElements_loads s : loads (observeElements s) = loads s.
Proof.
  unfold observeElements. generalize (lazyElements (page s)) as l.
  intros l. revert s. induction l as [|n l IH]; intros s; cbn; [done|].
  by rewrite IH.
Qed.

(** The callback does not look for repetitions within a batch. *)
Lemma callback_repeated_target n s :
  loads (callback [mkEntry n true; mkEntry n true] s) = loads s ++ [n; n].
Proof.
  unfold callback. cbn [fold_left]. rewrite !on_entry_loads by done.
  cbn. by rewrite <- app_assoc.
Qed.

(** Without [IntersectionObserver] the constructor loads every lazy
    element at once, in document order. *)
Lemma loadAllComponents_loads s : loads (loadAllComponents s) = loads s ++ lazyElements (page s).
Proof.
  unfold loadAllComponents. generalize (lazyElements (page s)) as l.
  intros l. revert s. induction l as [|n l IH]; intros s; cbn.
  - by rewrite app_nil_r.
  - rewrite IH, loadComponent_loads. by rewrite <- app_assoc.
Qed.

End LazyLoaderSpec.

(** ** PerformanceMonitor *)

Module PerformanceMonitorSpec.
Import PerformanceMonitor.

(** The request that [reportMetrics] builds. *)
Definition report_request (now : Z) (href : string) (s : State) : Request :=
  {| url := "/api/v1/performance-metrics";
     method := "POST";
     headers := [("Content-Type", "application/json")];
     body := {| body_metrics := metrics s; body_timestamp := now; body_url := href |} |}.

Lemma reportMetrics_below draw now href s :
  (draw < threshold)%Q →
  reportMetrics draw now href s
  = {| metrics := metrics s; sent := sent s ++ [report_request now href s] |}.
Proof.
  intros Hlt. unfold reportMetrics.
  destruct (Qlt_le_dec draw threshold) as [_|Hge]; [done|].
  by apply Qle_not_lt in Hge.
Qed.

Lemma reportMetrics_not_below draw now href s :
  ¬ (draw < threshold)%Q → reportMetrics draw now href s = s.
Proof.
  intros Hge. unfold reportMetrics.
  by destruct (Qlt_le_dec draw threshold) as [Hlt|_].
Qed.

Lemma reportMetrics_metrics draw now href s :
  metrics (reportMetrics draw now href s) = metrics s.
Proof. unfold reportMetrics. by destruct (Qlt_le_dec draw threshold). Qed.

(** C10.  [reportMetrics] posts the collected metrics to
    [/api/v1/performance-metrics] when the random draw is strictly below
    [0.1], and only then; for any other draw it issues no request; in both
    cases the stored metrics are unchanged. *)
Theorem reportMetrics_samples_one_in_ten (draw : Q) (now : Z) (href : string) (s : State) :
  let s' := reportMetrics draw now href s in
  metrics s' = metrics s
  ∧ ((draw < threshold)%Q →
     sent s' = sent s ++
       [ {| url := "/api/v1/performance-metrics"; method := "POST";
            headers := [("Content-Type", "application/json")];
            body := {| body_metrics := metrics s; body_timestamp := now;
                       body_url := href |} |} ])
  ∧ (¬ (draw < threshold)%Q → sent s' = sent s)
  ∧ (sent s' ≠ sent s → (draw < threshold)%Q).
Proof.
  cbn zeta. split_and!.
  - apply reportMetrics_metrics.
  - intros Hlt. by rewrite reportMetrics_below.
  - intros Hge. by rewrite reportMetrics_not_below.
  - intros Hne. destruct (Qlt_le_dec draw threshold) as [|Hge]; [done|].
    exfalso. apply Hne. rewrite reportMetrics_not_below; [done|].
    by apply Qle_not_lt.
Qed.

(** For draws on the grid of multiples of [2^-53], being below the
    binary64 [0.1] is being below one tenth. *)
Lemma threshold_on_grid (k : Z) :
  (k # 9007199254740992 < threshold)%Q ↔ (k # 9007199254740992 < 1 # 10)%Q.
Proof. unfold threshold, Qlt. cbn. lia. Qed.

(** The page-load listener stores the timings before it reports them. *)
Lemma onLoad_metrics pl draw now href s :
  pageLoad (metrics (onLoad pl draw now href s)) = Some pl.
Proof. unfold onLoad. by rewrite reportMetrics_metrics. Qed.

(** Two page loads: the first draw is below the threshold, the second is
    not; one request goes out. *)
Example two_page_loads :
  let pl := {| domContentLoaded := 12; loadComplete := 3; totalTime := 840 |} in
  let s := onLoad pl (1 # 2) 2000 "/" (onLoad pl (1 # 20) 1000 "/" new) in
  length (sent s) = 1%nat.
Proof. reflexivity. Qed.
End PerformanceMonitorSpec.


(** ** The data pipeline *)

Module PipelineSpec.
Import Pipeline Pipeline.PipelineOrchestrator.

(** *** Records through the stages *)

Lemma with_failure_identifier e r : identifier (with_failure e r) = identifier r.
Proof. done. Qed.

Lemma with_risk_identifier s c r : identifier (with_risk s c r) = identifier r.
Proof. done. Qed.





Lemma validate_record_risk rules r :
  risk_score (Validator.validate_record rules r) = risk_score r
  ∧ risk_category (Validator.validate_record rules r) = risk_category r.
Proof. unfold Validator.validate_record. repeat case_match; done. Qed.

(** A record that validation leaves without a failure is unchanged. *)
Lemma validate_record_valid rules r :
  failure (Validator.validate_record rules r) = None →
  Validator.validate_record rules r = r
  ∧ failure r = None
  ∧ existsb Validator.is_error (Validator.violations rules r) = false.
Proof.
  unfold Validator.validate_record.
  destruct (failure r) eqn:Ef; [by rewrite Ef|].
  destruct (existsb _ _) eqn:Ex; [done|]. by rewrite Ef.
Qed.

Lemma validate_record_invalid rules r rule :
  rule ∈ rules → severity rule = SevError → Validator.fires rule r = true →
  failure (Validator.validate_record rules r) ≠ None.
Proof.
  intros Hin Hsev Hf. unfold Validator.validate_record.
  destruct (failure r) eqn:Ef; [by rewrite Ef|].
  assert (existsb Validator.is_error (Validator.violations rules r) = true) as ->; [|done].
  apply existsb_exists. exists rule. split.
  - apply list_elem_of_In. unfold Validator.violations. by apply list_elem_of_filter.
  - unfold Validator.is_error. by apply bool_decide_eq_true.
Qed.

Lemma elem_of_valid_records r b :
  r ∈ valid_records b ↔ failure r = None ∧ r ∈ b.
Proof. unfold valid_records. by rewrite list_elem_of_filter. Qed.

(** *** Validator *)

(** C3.  For every record of a validated batch: if a rule of error
    severity that is in force at the record's observation date fires on the
    record, the record is marked invalid and is absent from the records
    passed to persistence; a record with no earlier failure on which only
    rules of warning severity fire stays among them, unchanged. *)
Theorem error_rule_excludes_record (rules : list ValidationRule) (b : Batch)
    (r : InspectionRecord) :
  r ∈ b →
  let out := (Validator.validate b rules).1 in
  ((∃ rule, rule ∈ rules ∧ severity rule = SevError
            ∧ Validator.in_force rule r = true
            ∧ Validator.violates (kind rule) r = true) →
   Validator.validate_record rules r ∈ out
   ∧ failure (Validator.validate_record rules r) ≠ None
   ∧ (Validator.validate_record rules r ∉ valid_records out)
   ∧ (r ∉ valid_records out))
  ∧ (failure r = None →
     (∀ rule, rule ∈ rules → Validator.fires rule r = true → severity rule = SevWarning) →
     Validator.validate_record rules r = r ∧ r ∈ valid_records out).
Proof.
  intros Hin out. subst out. cbn. split.
  - intros (rule & Hrule & Hsev & Hforce & Hviol).
    assert (Hfires : Validator.fires rule r = true).
    { unfold Validator.fires. by rewrite Hforce, Hviol. }
    pose proof (validate_record_invalid rules r rule Hrule Hsev Hfires) as Hinv.
    split_and!.
    + by apply list_elem_of_fmap_2.
    + done.
    + rewrite elem_of_valid_records. by intros [? _].
    + rewrite elem_of_valid_records. intros [Hnone Hr].
      apply list_elem_of_fmap in Hr as (r0 & Heq & _).
      rewrite Heq in Hnone.
      destruct (validate_record_valid rules r0 Hnone) as (Hsame & _ & _).
      rewrite Hsame in Heq. subst r0. exact (Hinv Hnone).
  - intros Hnone Hwarn.
    assert (Hsame : Validator.validate_record rules r = r).
    { unfold Validator.validate_record. rewrite Hnone.
      destruct (existsb _ _) eqn:Ex; [|done].
      apply existsb_exists in Ex as (rule & Hv%list_elem_of_In & Herr).
      unfold Validator.violations in Hv. apply list_elem_of_filter in Hv as [Hf Hr].
      specialize (Hwarn rule Hr Hf). unfold Validator.is_error in Herr.
      apply bool_decide_eq_true in Herr. congruence. }
    split; [done|]. rewrite elem_of_valid_records. split; [done|].
    rewrite <- Hsame. by apply list_elem_of_fmap_2.
Qed.

(** The report counts what the marking says. *)
Lemma validate_report_counts rules b :
  let '(out, rep) := Validator.validate b rules in
  passed rep = length (valid_records out)
  ∧ (passed rep + failed rep = length b)%nat.
Proof.
  cbn. split; [done|].
  assert (length (valid_records (Validator.validate_record rules <$> b))
          ≤ length (Validator.validate_record rules <$> b))%nat.
  { apply length_filter. }
  rewrite length_fmap in *. lia.
Qed.
(** *** The retry loop *)

Definition is_attempt_of (s : Stage) (ev : Event) : Prop :=
  match ev with Attempt s' _ _ => s' = s | _ => False end.

Lemma attempts_only_attempts {A} s hit (body : Error + A) budget : ∀ k,
  Forall (is_attempt_of s) (attempts s hit body budget k).1.
Proof.
  induction budget as [|budget IH]; intros k; cbn.
  - destruct (match hit k with Some e => inl e | None => body end); cbn;
      by repeat constructor.
  - destruct (match hit k with Some e => inl e | None => body end) as [e|a]; cbn;
      [|by repeat constructor].
    destruct (retryable e); [|by repeat constructor].
    specialize (IH (S k)). destruct (attempts s hit body budget (S k)) as [j r].
    cbn in *. by constructor.
Qed.




(** The attempts of a stage are recorded one by one, numbered from [k] on,
    and there are at most [budget + 1] of them. *)
Lemma attempts_numbered {A} s hit (body : Error + A) budget : ∀ k,
  let j := (attempts s hit body budget k).1 in
  (attempts_of s j).*1 = seq k (length j) ∧ (1 ≤ length j ≤ S budget)%nat.
Proof.
  induction budget as [|budget IH]; intros k; cbn.
  - destruct (match hit k with Some e => inl e | None => body end); cbn;
      rewrite decide_True by done; cbn; (split; [done | lia]).
  - destruct (match hit k with Some e => inl e | None => body end) as [e|a]; cbn;
      [|rewrite decide_True by done; cbn; split; [done | lia]].
    destruct (retryable e); cbn;
      [|rewrite decide_True by done; cbn; split; [done | lia]].
    specialize (IH (S k)). destruct (attempts s hit body budget (S k)) as [j r].
    cbn in *. rewrite decide_True by done. cbn. destruct IH as [-> ?].
    split; [done | lia].
Qed.


Lemma attempts_inl {A} s hit (body : Error + A) budget : ∀ k j s' e,
  attempts s hit body budget k = (j, inl (s', e)) → s' = s.
Proof.
  induction budget as [|budget IH]; intros k j s' e; cbn.
  - destruct (match hit k with Some e => inl e | None => body end); cbn; congruence.
  - destruct (match hit k with Some e => inl e | None => body end) as [e0|a]; cbn;
      [|congruence].
    destruct (retryable e0); [|congruence].
    destruct (attempts s hit body budget (S k)) as [j' r] eqn:E.
    intros [= _ ->]. by eapply IH.
Qed.



(** *** The processing stages *)



(** The events of the processing stages: transitions into a stage and
    attempts, none of them of the Persisting stage. *)
Definition processing_event (ev : Event) : Prop :=
  match ev with
  | Entered (Running s) | Attempt s _ _ => s ≠ Persisting
  | _ => False
  end.

Lemma attempts_processing {A} s hit (body : Error + A) budget k :
  s ≠ Persisting → Forall processing_event (attempts s hit body budget k).1.
Proof.
  intros Hs. eapply Forall_impl; [apply attempts_only_attempts|].
  intros [] Hev; cbn in *; by subst.
Qed.

(** Splits the goal on the outcome of the next stage. *)
Ltac stage_step :=
  match goal with
  | |- context [attempts ?s ?hit ?body ?budget 0%nat] =>
      let j := fresh "j" in
      let E := fresh "E" in
      pose proof (attempts_only_attempts s hit body budget 0%nat);
      pose proof (attempts_numbered s hit body budget 0%nat);
      destruct (attempts s hit body budget 0%nat) as [j [[? ?]|?]] eqn:E;
      cbn [fst snd] in *
  end.


Lemma process_events cfg env st : Forall processing_event (process cfg env st).1.
Proof.
  unfold process, bind, run_stage.
  repeat (stage_step;
          try match goal with
              | E : attempts ?s ?hit ?body ?budget 0%nat = (?j, _) |- _ =>
                  assert (Forall processing_event j)
                    by (pose proof (attempts_processing s hit body budget 0%nat) as Hp;
                        rewrite E in Hp; by apply Hp);
                  clear E
              end);
    repeat first [ apply Forall_cons; split; [done|]
                 | apply Forall_app; split
                 | assumption ].
Qed.



(** A failure of the processing stages names one of them. *)
Lemma process_inl cfg env st j s e :
  process cfg env st = (j, inl (s, e)) → s ≠ Persisting.
Proof.
  unfold process, bind, run_stage.
  repeat (stage_step;
          try (intros [= _ <- _];
               match goal with
               | E : attempts _ _ _ _ _ = (_, inl _) |- _ =>
                   apply attempts_inl in E; by subst
               end)).
Qed.






(** *** Enricher and the store *)

Lemma enrich_record_identifier d st r :
  identifier (Enricher.enrich_record d st r) = identifier r.
Proof. done. Qed.



(** *** Persister *)

Definition upsert_all (rs : list InspectionRecord) (st : Store) : Store :=
  foldl (λ st r, Persister.upsert r st) st rs.

Definition writes (rs : list InspectionRecord) : list Event :=
  (λ r, Written (identifier r)) <$> rs.

(** The position at which a batch of [n] writes fails, if it does. *)
Definition hits (fault : option nat) (n : nat) : option nat :=
  match fault with
  | Some i => if decide (i < n)%nat then Some i else None
  | None => None
  end.

(** The last record of a list that carries a given identifier. *)
Fixpoint latest (rs : list InspectionRecord) (id : string) : option InspectionRecord :=
  match rs with
  | [] => None
  | r :: rs' =>
      match latest rs' id with
      | Some r' => Some r'
      | None => if decide (identifier r = id) then Some r else None
      end
  end.

Lemma write_all_spec rs : ∀ fault (st : Store),
  Persister.write_all rs fault st =
  match hits fault (length rs) with
  | Some i => (PartialWrite i, upsert_all (take i rs) st, writes (take i rs))
  | None => (Persisted (length rs), upsert_all rs st, writes rs)
  end.
Proof.
  induction rs as [|r rs IH]; intros fault st.
  - destruct fault as [i|]; cbn; [|done]. by destruct i.
  - destruct fault as [[|i]|]; cbn; [done | |].
    + rewrite IH. cbn. destruct (decide (i < length rs)%nat), (decide (S i < S (length rs))%nat);
        try lia; done.
    + by rewrite IH.
Qed.


Lemma latest_is_Some rs r : r ∈ rs → is_Some (latest rs (identifier r)).
Proof.
  induction rs as [|r0 rs IH]; [by intros ?%elem_of_nil|].
  intros [->|Hin]%elem_of_cons; cbn.
  - destruct (latest rs (identifier r0)); [done|]. by rewrite decide_True.
  - destruct (IH Hin) as [r' ->]. done.
Qed.

Lemma latest_None rs id : latest rs id = None → ∀ r, r ∈ rs → identifier r ≠ id.
Proof.
  intros Hn r Hin <-. destruct (latest_is_Some rs r Hin) as [? ?]. congruence.
Qed.




Lemma written_not_processing id : ¬ processing_event (Written id).
Proof. by intros []. Qed.

(** *** The ways a run ends *)

Definition final_of (ex : list Exclusion) : RunState :=
  match ex with [] => Succeeded | _ => PartiallySucceeded end.

Definition snapshot_events (cfg : PipelineConfig) : list Event :=
  if backup_enabled cfg then [SnapshotTaken] else [].

Definition undo_event (cfg : PipelineConfig) : Event :=
  if backup_enabled cfg then Restored else RolledBack.

(** A run ends in one of five ways: a processing stage halts it; validation
    leaves no valid record; the snapshot fails; a write fails; or every
    valid record is written. *)
Inductive Outcome (cfg : PipelineConfig) (env : Env) (st : Store) : RunResult → Prop :=
| halted_in_stage j at_ :
    process cfg env st = (j, inl at_) →
    Outcome cfg env st
      (halted j None (exclusions_of (rule_set cfg) (batch_at cfg env st at_.1)) at_ st)
| nothing_valid j b v :
    process cfg env st = (j, inr (b, v)) →
    valid_records b = [] →
    Outcome cfg env st
      (halted j (Some v) (exclusions_of (rule_set cfg) b) (Validating, ValidationError) st)
| snapshot_failed j b v :
    process cfg env st = (j, inr (b, v)) →
    valid_records b ≠ [] →
    backup_enabled cfg = true →
    backup_reachable env = false →
    Outcome cfg env st
      (halted ((j ++ [Entered (Running Persisting)]) ++ [SnapshotFailed]) (Some v)
         (exclusions_of (rule_set cfg) b) (Persisting, BackupUnavailable) st)
| write_failed j b v i :
    process cfg env st = (j, inr (b, v)) →
    valid_records b ≠ [] →
    (backup_enabled cfg = true → backup_reachable env = true) →
    hits (write_fault env) (length (valid_records b)) = Some i →
    Outcome cfg env st
      (halted (((j ++ [Entered (Running Persisting)]) ++ snapshot_events cfg)
               ++ writes (take i (valid_records b)) ++ [undo_event cfg])
         (Some v) (exclusions_of (rule_set cfg) b) (Persisting, PersistFailure) st)
| written j b v :
    process cfg env st = (j, inr (b, v)) →
    valid_records b ≠ [] →
    (backup_enabled cfg = true → backup_reachable env = true) →
    hits (write_fault env) (length (valid_records b)) = None →
    Outcome cfg env st
      {| report :=
           {| final_status := final_of (exclusions_of (rule_set cfg) b);
              journal := Entered Idle
                         :: ((j ++ [Entered (Running Persisting)]) ++ snapshot_events cfg)
                            ++ writes (valid_records b)
                            ++ [Entered (final_of (exclusions_of (rule_set cfg) b))];
              validation := Some v;
              exclusions := exclusions_of (rule_set cfg) b;
              persisted := length (valid_records b);
              failed_at := None |};
         store := upsert_all (valid_records b) st |}.

Lemma run_outcome cfg env st : Outcome cfg env st (run cfg env st).
Proof.
  unfold run. destruct (process cfg env st) as [j [at_|[b v]]] eqn:Ep.
  - by apply halted_in_stage.
  - destruct (valid_records b) as [|r0 rs] eqn:Ev.
    + by apply nothing_valid.
    + assert (Hne : valid_records b ≠ []) by by rewrite Ev.
      clear Ev r0 rs.
      unfold persisting, Persister.persist. rewrite write_all_spec.
      destruct (backup_enabled cfg) eqn:Eb.
      * destruct (backup_reachable env) eqn:Er; cbn.
        -- destruct (hits _ _) as [i|] eqn:Eh.
           ++ pose proof (write_failed cfg env st j b v i Ep Hne) as Ho.
              unfold snapshot_events, undo_event in Ho. rewrite Eb in Ho.
              by apply Ho.
           ++ pose proof (written cfg env st j b v Ep Hne) as Ho.
              unfold snapshot_events in Ho. rewrite Eb in Ho. by apply Ho.
        -- by apply snapshot_failed.
      * destruct (hits _ _) as [i|] eqn:Eh.
        -- pose proof (write_failed cfg env st j b v i Ep Hne) as Ho.
           unfold snapshot_events, undo_event in Ho. rewrite Eb in Ho.
           rewrite app_nil_r in Ho. by apply Ho.
        -- pose proof (written cfg env st j b v Ep Hne) as Ho.
           unfold snapshot_events in Ho. rewrite Eb in Ho.
           rewrite app_nil_r in Ho. by apply Ho.
Qed.


Lemma run_nothing_valid cfg env st j b v :
  process cfg env st = (j, inr (b, v)) → valid_records b = [] →
  run cfg env st =
    halted j (Some v) (exclusions_of (rule_set cfg) b) (Validating, ValidationError) st.
Proof. intros Hp Hv. destruct (run_outcome cfg env st); congruence. Qed.


Lemma run_write_failed cfg env st j b v i :
  process cfg env st = (j, inr (b, v)) →
  valid_records b ≠ [] →
  (backup_enabled cfg = true → backup_reachable env = true) →
  hits (write_fault env) (length (valid_records b)) = Some i →
  run cfg env st =
    halted (((j ++ [Entered (Running Persisting)]) ++ snapshot_events cfg)
             ++ writes (take i (valid_records b)) ++ [undo_event cfg])
      (Some v) (exclusions_of (rule_set cfg) b) (Persisting, PersistFailure) st.
Proof.
  intros Hp Hv Hb Hh. destruct (run_outcome cfg env st); try congruence.
  match goal with H : backup_enabled cfg = true |- _ => specialize (Hb H) end.
  congruence.
Qed.

(** *** The journal of a run *)






(** The run of Scenario D: the source times out at each of the four
    attempts that [max_retries = 3] allows. *)
Definition demo_config (backup : bool) (rules : list ValidationRule) : PipelineConfig :=
  {| source_data_path := "data/raw/inspections.csv";
     output_db_path := "mapaq_dashboard.db";
     backup_enabled := backup;
     max_retries := 3;
     batch_size := 100;
     rule_set := rules |}.

Definition demo_env (src : option Source) (hit : Stage → nat → option Error)
    (reachable : bool) (fault : option nat) : Env :=
  {| source := src;
     dictionaries := {| addresses := ∅; themes := [("Sushi", "japanese")]%string |};
     scoringFn := λ r, match amount r with
                       | Some a => Some (if Qlt_le_dec a 1000 then 1 # 4 else 3 # 4)
                       | None => None
                       end;
     faults := hit;
     backup_reachable := reachable;
     write_fault := fault |}.


(** *** Persistence: all or nothing, and after the snapshot *)

(** A journal without a write. *)
Definition quiet (j : list Event) : Prop := ∀ id, Written id ∉ j.

Lemma quiet_app j1 j2 : quiet j1 → quiet j2 → quiet (j1 ++ j2).
Proof. intros H1 H2 id [?|?]%elem_of_app; [by apply (H1 id) | by apply (H2 id)]. Qed.

Lemma quiet_cons ev j : (∀ id, ev ≠ Written id) → quiet j → quiet (ev :: j).
Proof. intros H1 H2 id [?|?]%elem_of_cons; [by apply (H1 id) | by apply (H2 id)]. Qed.

Lemma quiet_nil : quiet [].
Proof. intros id ?%elem_of_nil. done. Qed.

Lemma quiet_processing j : Forall processing_event j → quiet j.
Proof.
  intros Hall id Hin. rewrite Forall_forall in Hall. by apply Hall in Hin.
Qed.

Lemma quiet_process cfg env st : quiet (process cfg env st).1.
Proof. apply quiet_processing, process_events. Qed.

(** In a journal that is quiet up to some event, that event comes before
    every write. *)
Lemma before_first_write (pre : list Event) : ∀ post j1 j2 x id,
  quiet pre → x ≠ Written id →
  pre ++ x :: post = j1 ++ Written id :: j2 → x ∈ j1.
Proof.
  induction pre as [|p pre IH]; intros post j1 j2 x id Hq Hx Heq.
  - destruct j1 as [|e j1]; cbn in Heq; [congruence|].
    injection Heq as -> _. by left.
  - destruct j1 as [|e j1]; cbn in Heq.
    + injection Heq as -> _. exfalso. apply (Hq id). by left.
    + injection Heq as -> Heq. right. eapply IH; [|done..].
      intros id' Hin. apply (Hq id'). by right.
Qed.

Lemma restored_recorded (pre w : list Event) :
  Restored ∈ Entered Idle :: (pre ++ w ++ [Restored]) ++ [Entered Failed].
Proof.
  right. apply elem_of_app. left. apply elem_of_app. right.
  apply elem_of_app. right. by left.
Qed.

Lemma snapshot_failed_not_processing j :
  Forall processing_event j → SnapshotFailed ∉ j.
Proof. intros Hall Hin. rewrite Forall_forall in Hall. by apply Hall in Hin. Qed.

Lemma snapshot_failed_not_writes rs : SnapshotFailed ∉ writes rs.
Proof. unfold writes. by intros (? & ? & _)%list_elem_of_fmap. Qed.

(** Closes a goal that an event is absent from an explicit journal. *)
Ltac absent :=
  repeat first
    [ assumption
    | apply not_elem_of_nil
    | apply not_elem_of_cons; split; [done|]
    | apply not_elem_of_app; split ].



(** C6.  In a run with backups enabled, every write to the store comes
    after the snapshot was taken; if the backup medium is unreachable the
    run fails without a write and the store is untouched; a run whose
    snapshot failed is [Failed] with [BackupUnavailable]; and when
    persistence fails after the snapshot, the store is restored
    to what it was before the run. *)
Theorem snapshot_precedes_writes (cfg : PipelineConfig) (env : Env) (st : Store) :
  backup_enabled cfg = true →
  let res := run cfg env st in
  let rep := report res in
  (∀ j1 id j2, journal rep = j1 ++ Written id :: j2 → SnapshotTaken ∈ j1)
  ∧ (backup_reachable env = false →
     final_status rep = Failed ∧ quiet (journal rep) ∧ store res = st)
  ∧ (SnapshotFailed ∈ journal rep →
     final_status rep = Failed
     ∧ failed_at rep = Some (Persisting, BackupUnavailable)
     ∧ quiet (journal rep))
  ∧ (failed_at rep = Some (Persisting, PersistFailure) →
     Restored ∈ journal rep ∧ store res = st).
Proof.
  intros Hen. cbn zeta.
  assert (Hsnap : ∀ j w tl j1 id j2,
            quiet j →
            Entered Idle :: ((j ++ [Entered (Running Persisting)]) ++ snapshot_events cfg)
                            ++ w ++ tl = j1 ++ Written id :: j2 →
            SnapshotTaken ∈ j1).
  { intros j w tl j1 id j2 Hq Heq. unfold snapshot_events in Heq. rewrite Hen in Heq.
    apply (before_first_write (Entered Idle :: j ++ [Entered (Running Persisting)])
             (w ++ tl) j1 j2 SnapshotTaken id); [| done |].
    - apply quiet_cons; [done|]. apply quiet_app; [done|].
      apply quiet_cons; [done | apply quiet_nil].
    - rewrite <- Heq. cbn. by rewrite <- !app_assoc. }
  assert (Hquiet : ∀ j tl j1 id j2,
            quiet j → quiet tl →
            Entered Idle :: j ++ tl = j1 ++ Written id :: j2 → False).
  { intros j tl j1 id j2 Hq Ht Heq.
    assert (Hin : Written id ∈ Entered Idle :: j ++ tl).
    { rewrite Heq. apply elem_of_app. right. by left. }
    revert Hin. apply quiet_cons; [done|]. by apply quiet_app. }
  assert (Hfailed_quiet : quiet [Entered Failed]).
  { apply quiet_cons; [done | apply quiet_nil]. }
  destruct (run_outcome cfg env st) as [j at_ Hp|j b v Hp Hv|j b v Hp Hv Hb Hr
                                       |j b v i Hp Hv Hb Hh|j b v Hp Hv Hb Hh];
    pose proof (quiet_process cfg env st) as Hq;
    pose proof (snapshot_failed_not_processing _ (process_events cfg env st)) as Hnf;
    rewrite Hp in Hq, Hnf; cbn in Hq, Hnf; cbn.
  - split_and!.
    + intros j1 id j2 Heq. by destruct (Hquiet _ _ _ _ _ Hq Hfailed_quiet Heq).
    + intros _. split_and!; [done | | done].
      apply quiet_cons; [done|]. by apply quiet_app.
    + intros Hin. exfalso. revert Hin. absent.
    + intros [= ->]. by apply process_inl in Hp.
  - split_and!.
    + intros j1 id j2 Heq. by destruct (Hquiet _ _ _ _ _ Hq Hfailed_quiet Heq).
    + intros _. split_and!; [done | | done].
      apply quiet_cons; [done|]. by apply quiet_app.
    + intros Hin. exfalso. revert Hin. absent.
    + done.
  - assert (Hq' : quiet (Entered Idle
                         :: ((j ++ [Entered (Running Persisting)]) ++ [SnapshotFailed])
                            ++ [Entered Failed])).
    { apply quiet_cons; [done|]. repeat apply quiet_app; try done;
        (apply quiet_cons; [done | apply quiet_nil]). }
    split_and!.
    + intros j1 id j2 Heq. exfalso. apply (Hq' id). rewrite Heq.
      apply elem_of_app. right. by left.
    + done.
    + done.
    + done.
  - split_and!.
    + intros j1 id j2 Heq. rewrite <- app_assoc in Heq.
      by apply (Hsnap _ _ _ _ _ _ Hq Heq).
    + intros Hunreach. specialize (Hb Hen). congruence.
    + unfold snapshot_events, undo_event. rewrite Hen.
      pose proof (snapshot_failed_not_writes (take i (valid_records b))).
      intros Hin. exfalso. revert Hin. absent.
    + intros _. split; [|done]. unfold undo_event. rewrite Hen.
      apply restored_recorded.
  - split_and!.
    + intros j1 id j2 Heq. by apply (Hsnap _ _ _ _ _ _ Hq Heq).
    + intros Hunreach. specialize (Hb Hen). congruence.
    + unfold snapshot_events. rewrite Hen.
      pose proof (snapshot_failed_not_writes (valid_records b)).
      intros Hin. exfalso. revert Hin. absent.
    + done.
Qed.

(** *** Per-record failures *)

Lemma excluded_elem_of rules b r e :
  r ∈ b → failure r = Some e →
  ∃ x, x ∈ exclusions_of rules b ∧ excluded_id x = identifier r ∧ reason x = e.
Proof.
  intros Hin Hf.
  assert (∃ x, exclusion_of rules r = Some x
               ∧ excluded_id x = identifier r ∧ reason x = e) as (x & Hx & ? & ?).
  { unfold exclusion_of. rewrite Hf. eauto. }
  exists x. split; [|done]. unfold exclusions_of. apply list_elem_of_omap. eauto.
Qed.

Lemma exclusions_of_nil rules b :
  exclusions_of rules b = [] → ∀ r, r ∈ b → failure r = None.
Proof.
  intros Hnil r Hin. destruct (failure r) as [e|] eqn:Hf; [|done].
  destruct (excluded_elem_of rules b r e Hin Hf) as (x & Hx & _).
  rewrite Hnil in Hx. by apply elem_of_nil in Hx.
Qed.









(** *** Running twice *)














(** *** Scenarios *)

Definition demo_row (id nm amt : string) : gmap string string :=
  {[ "business_id"%string := id;
     "etablissement"%string := nm;
     "montant"%string := amt;
     "statut"%string := "Ouvert"%string;
     "date_statut"%string := "2024-05-17"%string ]}.

Definition demo_source (rs : list (gmap string string)) : option Source :=
  Some {| columns := ["business_id"; "etablissement"; "montant"; "statut";
                      "date_statut"]%string;
          rows := rs |}.

Definition name_required : ValidationRule :=
  {| rule_name := "name_required";
     severity := SevError;
     description := "the establishment has a name";
     kind := RequiredField FName;
     effective := Some (20240101, 20241231) |}.

Definition amount_modest : ValidationRule :=
  {| rule_name := "amount_modest";
     severity := SevWarning;
     description := "the fine is at most 5000 dollars";
     kind := Range FAmount 0 5000;
     effective := None |}.

Definition demo_rules : list ValidationRule := [name_required; amount_modest].

(** Three rows: a well-formed one with a large fine, one without a name,
    and one whose amount is not a number. *)
Definition demo_rows : list (gmap string string) :=
  [demo_row "1001" "Sushi Bar" "7500.50";
   demo_row "1002" " " "200";
   demo_row "1003" "Chez Lise" "n/a"]%string.

Definition quiet_env (fault : option nat) : Env :=
  demo_env (demo_source demo_rows) (λ _ _, None) true fault.

Definition demo_batch : Batch :=
  Cleaner.clean (Ingestor.raw_record <$> demo_rows).


Lemma error_rule_excludes_record_witness :
  let r := Cleaner.clean_record (Ingestor.raw_record (demo_row "1002" " " "200")) in
  r ∈ demo_batch
  ∧ r ∉ valid_records (Validator.validate demo_batch demo_rules).1.
Proof.
  intros r.
  assert (Hin : r ∈ demo_batch).
  { apply (list_elem_of_lookup_2 _ 1%nat). by vm_compute. }
  split; [exact Hin|].
  apply (error_rule_excludes_record demo_rules demo_batch r Hin).
  exists name_required. split_and!; [by left | done | by vm_compute | by vm_compute].
Defined.

Lemma snapshot_precedes_writes_witness :
  let cfg := demo_config true demo_rules in
  let res := run cfg (quiet_env (Some 0%nat)) ∅ in
  backup_enabled cfg = true
  ∧ Restored ∈ journal (report res)
  ∧ store res = ∅.
Proof.
  intros cfg res. split; [done|].
  apply (snapshot_precedes_writes cfg (quiet_env (Some 0%nat)) ∅ eq_refl).
  by vm_compute.
Defined.




(** The scenarios of the specification.  Each row of [inspected] is an
    establishment identifier with the name its row carries. *)
Definition inspected (named : list (string * string)) : Env :=
  demo_env (demo_source ((λ '(id, nm), demo_row id nm "150.00") <$> named))
    (λ _ _, None) true None.

Definition ten_named : list (string * string) :=
  [("2001", "Le Bistro"); ("2002", "Sushi Zen"); ("2003", "Pizzeria Roma");
   ("2004", "Chez Paul"); ("2005", "La Belle Province"); ("2006", "Pho Lien");
   ("2007", "Cantine B"); ("2008", "Boulangerie Guillaume"); ("2009", "Le Dragon");
   ("2010", "Taverne 41")]%string.

Definition two_unnamed : list (string * string) :=
  [("2001", "Le Bistro"); ("2002", EmptyString); ("2003", "Pizzeria Roma");
   ("2004", "Chez Paul"); ("2005", "La Belle Province"); ("2006", "Pho Lien");
   ("2007", EmptyString); ("2008", "Boulangerie Guillaume"); ("2009", "Le Dragon");
   ("2010", "Taverne 41")]%string.

(** Scenario A: ten well-formed records and no violation. *)
Example scenario_A :
  let res := run (demo_config true demo_rules) (inspected ten_named) ∅ in
  final_status (report res) = Succeeded
  ∧ persisted (report res) = 10%nat
  ∧ size (store res) = 10%nat.
Proof. by vm_compute. Qed.

(** Scenario B: two of ten records break a required-field rule of error
    severity. *)
Example scenario_B :
  let res := run (demo_config true demo_rules) (inspected two_unnamed) ∅ in
  final_status (report res) = PartiallySucceeded
  ∧ persisted (report res) = 8%nat
  ∧ exclusions (report res)
    = [ {| excluded_id := "2002"; reason := ValidationError;
           broken_rules := ["name_required"]%string |};
        {| excluded_id := "2007"; reason := ValidationError;
           broken_rules := ["name_required"]%string |} ].
Proof. by vm_compute. Qed.

(** Scenario C: the third of five writes fails, with backups enabled. *)
Example scenario_C :
  let env := demo_env (source (inspected (take 5 ten_named))) (λ _ _, None) true
               (Some 2%nat) in
  let res := run (demo_config true demo_rules) env ∅ in
  final_status (report res) = Failed
  ∧ store res = ∅
  ∧ failed_at (report res) = Some (Persisting, PersistFailure)
  ∧ journal (report res)
    = [Entered Idle;
       Entered (Running Ingesting); Attempt Ingesting 0 None;
       Entered (Running Cleaning); Attempt Cleaning 0 None;
       Entered (Running Enriching); Attempt Enriching 0 None;
       Entered (Running Modeling); Attempt Modeling 0 None;
       Entered (Running Validating); Attempt Validating 0 None;
       Entered (Running Persisting); SnapshotTaken;
       Written "2001"; Written "2002"; Restored; Entered Failed].
Proof. by vm_compute. Qed.

(** A source whose header lacks a required column is not retried. *)
Example schema_mismatch_is_fatal :
  let env := demo_env (Some {| columns := ["business_id"]%string; rows := [] |})
               (λ _ _, None) true None in
  let rep := report (run (demo_config true demo_rules) env ∅) in
  final_status rep = Failed
  ∧ failed_at rep = Some (Ingesting, SchemaMismatch)
  ∧ retry_count Ingesting (journal rep) = 0%nat.
Proof. by vm_compute. Qed.

(** A timeout that hits the first two attempts of the enrichment is
    retried, and the run goes on. *)
Example transient_failure_is_retried :
  let env := demo_env (source (inspected ten_named))
               (λ s k, if decide (s = Enriching)
                       then (if (k <? 2)%nat then Some Timeout else None)
                       else None)
               true None in
  let rep := report (run (demo_config true demo_rules) env ∅) in
  final_status rep = Succeeded
  ∧ attempts_of Enriching (journal rep)
    = [(0, Some Timeout); (1, Some Timeout); (2, None)]%nat.
Proof. by vm_compute. Qed.

(** A run halted in Modeling, every attempt timing out, still lists the
    record that Cleaning had marked malformed. *)
Example halted_run_lists_exclusions :
  let env := demo_env (demo_source demo_rows)
               (λ s _, if decide (s = Modeling) then Some Timeout else None)
               true None in
  let rep := report (run (demo_config true demo_rules) env ∅) in
  final_status rep = Failed
  ∧ failed_at rep = Some (Modeling, Timeout)
  ∧ ((λ x, (excluded_id x, reason x)) <$> exclusions rep)
    = [("1003"%string, MalformedInput)].
Proof. by vm_compute. Qed.
End PipelineSpec.


(** ** APICache: further properties *)

Module APICacheMore.
Import APICache APICacheSpec.
Section Cache.
Context {K : Type} `{Countable K} {D : Type}.
Implicit Types (c : t K D) (h : list (Z * Op K D)) (key : K).

(** The key a call is about, and the calls of a history that are about a
    key, that set it, that read it. *)
Definition key_of (op : Op K D) : K :=
  match op with CallGet k => k | CallSet k _ => k end.

Definition is_set (op : Op K D) : bool :=
  match op with CallSet _ _ => true | CallGet _ => false end.

Definition untouched key h : Prop := ∀ t0 op, (t0, op) ∈ h → key_of op ≠ key.

Definition never_set key h : Prop :=
  ∀ t0 op, (t0, op) ∈ h → is_set op = true → key_of op ≠ key.

Definition never_read key h : Prop :=
  ∀ t0 op, (t0, op) ∈ h → is_set op = false → key_of op ≠ key.

Lemma step_other now op c key :
  key_of op ≠ key → cache (step now op c) !! key = cache c !! key.
Proof.
  destruct op as [k|k d]; cbn; intros Hne.
  - unfold get. destruct (cache c !! k) as [item|]; [|done].
    destruct (maxAge c <? now - timestamp item); cbn; [|done].
    by apply lookup_delete_ne.
  - by apply lookup_insert_ne.
Qed.

Lemma replay_other h : ∀ c key,
  untouched key h → cache (replay h c) !! key = cache c !! key.
Proof.
  induction h as [|[t0 op] h IH]; intros c key Hun; cbn; [done|].
  rewrite IH.
  - apply step_other. apply (Hun t0). by left.
  - intros t1 op1 Hin. apply (Hun t1). by right.
Qed.

(** X1.  Round trip: what [set(k, d)] stored is what [get(k)] returns, as
    long as the reading is at most [maxAge] after the one of [set], whatever
    calls on other keys were made in between; and that [get] changes
    nothing. *)
Theorem set_get_round_trip c (t0 now : Z) key (d : D) h :
  untouched key h →
  now - t0 <= maxAge c →
  get now key (replay h (set t0 key d c)) = (Some d, replay h (set t0 key d c)).
Proof.
  intros Hun Hage.
  apply (get_fresh now key _ {| data := d; timestamp := t0 |}).
  - rewrite (replay_other h _ key Hun). apply set_lookup.
  - by rewrite replay_maxAge.
Qed.

Lemma step_never_set now op c key :
  (is_set op = true → key_of op ≠ key) →
  cache (step now op c) !! key = None
  ∨ cache (step now op c) !! key = cache c !! key.
Proof.
  intros Hns. destruct op as [k|k d]; cbn.
  - unfold get. destruct (cache c !! k) as [item|] eqn:E; [|by right].
    destruct (maxAge c <? now - timestamp item); cbn; [|by right].
    destruct (decide (k = key)) as [->|Hne].
    + left. apply lookup_delete_eq.
    + right. by apply lookup_delete_ne.
  - right. apply lookup_insert_ne. by apply Hns.
Qed.

Lemma replay_never_set h : ∀ c key,
  never_set key h →
  cache (replay h c) !! key = None ∨ cache (replay h c) !! key = cache c !! key.
Proof.
  induction h as [|[t0 op] h IH]; intros c key Hns; cbn; [by right|].
  assert (Hrest : never_set key h).
  { intros t1 op1 Hin. apply (Hns t1). by right. }
  destruct (IH (step t0 op c) key Hrest) as [Hnone|Hsame]; [by left|].
  rewrite Hsame. apply step_never_set. apply (Hns t0). by left.
Qed.

(** X2.  Expiry counts from the last [set] and reading does not postpone
    it: once the reading is more than [maxAge] after the one of
    [set(k, d)], [get(k)] returns [null], however often and whenever the
    key was read in between, as long as it was not set again. *)
Theorem reads_do_not_refresh c (t0 now : Z) key (d : D) h :
  never_set key h →
  maxAge c < now - t0 →
  fst (get now key (replay h (set t0 key d c))) = None.
Proof.
  intros Hns Hage.
  destruct (replay_never_set h (set t0 key d c) key Hns) as [Hnone|Hsame].
  - by rewrite (get_absent _ _ _ Hnone).
  - rewrite set_lookup in Hsame.
    rewrite (get_expired _ _ _ _ Hsame); [done|].
    by rewrite replay_maxAge.
Qed.

Lemma step_never_read now op c key :
  (is_set op = false → key_of op ≠ key) →
  is_Some (cache c !! key) → is_Some (cache (step now op c) !! key).
Proof.
  intros Hnr Hin. destruct op as [k|k d].
  - rewrite (step_other now (CallGet k) c key); [done|]. by apply Hnr.
  - cbn. destruct (decide (k = key)) as [->|Hne].
    + by rewrite lookup_insert_eq.
    + by rewrite lookup_insert_ne.
Qed.

(** X3.  Nothing but a [get] on its own key removes an entry: an entry that
    is not read again stays in the map, whatever the clock reads and
    whatever is done with other keys. *)
Theorem unread_entries_stay c key h :
  never_read key h →
  is_Some (cache c !! key) → is_Some (cache (replay h c) !! key).
Proof.
  revert c. induction h as [|[t0 op] h IH]; intros c Hnr Hin; cbn; [done|].
  apply IH.
  - intros t1 op1 Hin1. apply (Hnr t1). by right.
  - apply step_never_read; [|done]. apply (Hnr t0). by left.
Qed.

(** No stored timestamp is later than the last reading of the clock. *)
Definition stamped_by (T : Z) c : Prop :=
  ∀ key item, cache c !! key = Some item → timestamp item <= T.

Lemma stamped_by_later T T' c : T <= T' → stamped_by T c → stamped_by T' c.
Proof. intros Hle Hst key item Hl. specialize (Hst key item Hl). lia. Qed.

Lemma step_stamped T now op c :
  T <= now → stamped_by T c → stamped_by now (step now op c).
Proof.
  intros Hle Hst key item. destruct op as [k|k d]; cbn.
  - unfold get. destruct (cache c !! k) as [it|] eqn:E;
      [|intros Hl; specialize (Hst key item Hl); lia].
    destruct (maxAge c <? now - timestamp it); cbn;
      [|intros Hl; specialize (Hst key item Hl); lia].
    destruct (decide (k = key)) as [->|Hne].
    + by rewrite lookup_delete_eq.
    + rewrite lookup_delete_ne by done. intros Hl. specialize (Hst key item Hl). lia.
  - destruct (decide (k = key)) as [->|Hne].
    + rewrite lookup_insert_eq. intros [= <-]. cbn. lia.
    + rewrite lookup_insert_ne by done. intros Hl. specialize (Hst key item Hl). lia.
Qed.

Lemma replay_stamped h : ∀ T now c,
  stamped_by T c → starts_after T h → T <= now → chronological h now = true →
  stamped_by now (replay h c).
Proof.
  induction h as [|[t0 op] h IH]; intros T now c Hst Hs Hle Hch; cbn.
  - by eapply stamped_by_later.
  - cbn in Hs. apply chronological_cons in Hch as (Hnow & Hs' & Hch').
    apply (IH t0); [|done..]. by eapply step_stamped.
Qed.

(** X4.  A cache built with a negative [maxAge] never answers: along a
    clock that does not run backwards, every [get] returns [null]. *)
Theorem negative_maxAge_never_hits (m : Z) h (now : Z) key :
  m < 0 →
  chronological h now = true →
  fst (get now key (replay h (new (Some m)))) = None.
Proof.
  intros Hm Hch.
  assert (Hst : stamped_by now (replay h (new (Some m)))).
  { destruct h as [|[t0 op] h'].
    - intros k item. cbn. by rewrite lookup_empty.
    - pose proof (chronological_cons _ _ _ _ Hch) as (Hle & _ & _).
      apply (replay_stamped _ t0 now); [| cbn; lia | done | done].
      intros k item. cbn. by rewrite lookup_empty. }
  destruct (cache (replay h (new (Some m))) !! key) as [item|] eqn:E.
  - rewrite (get_expired _ _ _ _ E); [done|].
    rewrite replay_maxAge. cbn. specialize (Hst key item E). lia.
  - by rewrite (get_absent _ _ _ E).
Qed.
(** X21.  A miss is lasting: once [get(k)] has returned [null], every
    later [get(k)] returns [null] as well, whatever the clock reads and
    whatever else is done to the cache, until [k] is set again. *)
Theorem miss_persists_until_set c (now now' : Z) key h :
  fst (get now key c) = None →
  never_set key h →
  fst (get now' key (replay h (snd (get now key c)))) = None.
Proof.
  intros Hn Hns.
  rewrite get_absent; [done|].
  destruct (replay_never_set h (snd (get now key c)) key Hns) as [Hnone|Hsame];
    [done|].
  rewrite Hsame. by apply get_null_absent.
Qed.
End Cache.

Lemma miss_persists_until_set_witness :
  let c := set 0 "a"%string 1%nat (new (K := string) (D := nat) None) in
  let h := [(300002, CallSet "b"%string 2%nat); (300003, CallGet "a"%string)] in
  fst (get 5 "a"%string (replay h (snd (get 300001 "a"%string c)))) = None.
Proof.
  intros c h.
  apply (miss_persists_until_set c 300001 5 "a"%string h); [by vm_compute|].
  intros t0 op Hin. apply list_elem_of_In in Hin. cbn in Hin.
  destruct Hin as [[= <- <-]|[[= <- <-]|[]]]; done.
Defined.

Lemma set_get_round_trip_witness :
  let c := new (K := string) (D := nat) None in
  let h := [(5, CallSet "b"%string 7%nat); (10, CallGet "b"%string)] in
  fst (get 300000 "a"%string (replay h (set 0 "a"%string 1%nat c))) = Some 1%nat.
Proof.
  intros c h.
  rewrite (set_get_round_trip c 0 300000 "a"%string 1%nat h); [done | | by vm_compute].
  intros t0 op Hin. apply list_elem_of_In in Hin. cbn in Hin.
  destruct Hin as [[= <- <-]|[[= <- <-]|[]]]; done.
Defined.

Lemma reads_do_not_refresh_witness :
  let c := new (K := string) (D := nat) None in
  let h := [(100000, CallGet "a"%string); (200000, CallGet "a"%string);
            (299999, CallGet "a"%string)] in
  fst (get 300001 "a"%string (replay h (set 0 "a"%string 1%nat c))) = None.
Proof.
  intros c h.
  apply (reads_do_not_refresh c 0 300001 "a"%string 1%nat h); [|by vm_compute].
  intros t0 op Hin. apply list_elem_of_In in Hin. cbn in Hin.
  destruct Hin as [[= <- <-]|[[= <- <-]|[[= <- <-]|[]]]]; done.
Defined.

Lemma unread_entries_stay_witness :
  let c := set 0 "a"%string 1%nat (new (K := string) (D := nat) None) in
  let h := [(400000, CallSet "b"%string 2%nat); (900000, CallGet "b"%string)] in
  is_Some (cache (replay h c) !! "a"%string).
Proof.
  intros c h. apply (unread_entries_stay c "a"%string h);
    [|eexists; vm_compute; reflexivity].
  intros t0 op Hin. apply list_elem_of_In in Hin. cbn in Hin.
  destruct Hin as [[= <- <-]|[[= <- <-]|[]]]; done.
Defined.

Lemma negative_maxAge_never_hits_witness :
  let h := [(0, CallSet "a"%string 1%nat)] in
  fst (get 0 "a"%string (replay h (new (Some (-1))))) = None.
Proof.
  intros h.
  by apply (negative_maxAge_never_hits (-1) h 0 "a"%string).
Defined.
End APICacheMore.


(** ** LazyLoader: further properties *)

Module LazyLoaderMore.
Import LazyLoader LazyLoaderSpec.

(** The four branches of the [switch] of [loadComponent]. *)
Inductive Kind := KMap | KChart | KTable | KGeneric.

Definition kind_of (o : option string) : Kind :=
  match o with
  | Some "map"%string => KMap
  | Some "chart"%string => KChart
  | Some "table"%string => KTable
  | _ => KGeneric
  end.

Definition logged (n : Node) (s : State) : State :=
  {| page := page s; observer := observer s; loads := loads s ++ [n];
     fetches := fetches s |}.

Lemma loadComponent_kind n s :
  loadComponent n s =
  match kind_of (elements (page s) !! n ≫= lazy) with
  | KMap => loadMap n (logged n s)
  | KChart => loadChart n (logged n s)
  | KTable => loadTable n (logged n s)
  | KGeneric => loadGeneric n (logged n s)
  end.
Proof. unfold loadComponent, kind_of, logged. cbn. repeat case_match; done. Qed.

(** The request, if any, that loading an element issues: none for a map, a
    chart or a table, none without a [data-src], none for an empty one. *)
Definition request_of (p : Page) (n : Node) : list (Node * string) :=
  match kind_of (elements p !! n ≫= lazy) with
  | KGeneric =>
      match elements p !! n ≫= src with
      | Some EmptyString | None => []
      | Some url => [(n, url)]
      end
  | _ => []
  end.


(** The states a loader goes through on any browser, whatever entries the
    callback is handed. *)
Inductive visited (p : Page) : State → Prop :=
| visit_init supported : visited p (init supported p)
| visit_callback s entries : visited p s → visited p (callback entries s).

Lemma reachable_visited p s : reachable p s → visited p s.
Proof. induction 1; by constructor. Qed.

(** Two pages with the same elements and the same nesting, up to the
    markup of the elements and to which of them are still in the
    document. *)
Definition same_attributes (p p' : Page) : Prop :=
  nested p' = nested p
  ∧ ∀ n, elements p' !! n ≫= lazy = elements p !! n ≫= lazy
         ∧ elements p' !! n ≫= src = elements p !! n ≫= src.

Lemma same_attributes_refl p : same_attributes p p.
Proof. done. Qed.

Lemma same_attributes_trans p1 p2 p3 :
  same_attributes p1 p2 → same_attributes p2 p3 → same_attributes p1 p3.
Proof.
  intros [Ho1 Ha1] [Ho2 Ha2]. split; [congruence|].
  intros n. destruct (Ha1 n) as [? ?], (Ha2 n) as [? ?]. split; congruence.
Qed.

Lemma set_content_attributes n c p : same_attributes p (set_content n c p).
Proof.
  split; [done|]. intros m. cbn. rewrite lookup_alter.
  case_decide; [subst|done]. by destruct (elements p !! m).
Qed.

Lemma loadGeneric_page n s : page (loadGeneric n s) = page s.
Proof. unfold loadGeneric. repeat case_match; done. Qed.

Lemma loadComponent_attributes n s : same_attributes (page s) (page (loadComponent n s)).
Proof.
  rewrite loadComponent_kind.
  destruct (kind_of _); try apply set_content_attributes.
  by rewrite loadGeneric_page.
Qed.

Lemma on_entry_attributes e s : same_attributes (page s) (page (on_entry s e)).
Proof.
  unfold on_entry. destruct (isIntersecting e); [|done]. apply loadComponent_attributes.
Qed.

Lemma callback_attributes entries : ∀ s,
  same_attributes (page s) (page (callback entries s)).
Proof.
  induction entries as [|e entries IH]; intros s; cbn; [done|].
  eapply same_attributes_trans; [apply on_entry_attributes | apply IH].
Qed.

Lemma same_attributes_request p p' n :
  same_attributes p p' → request_of p' n = request_of p n.
Proof. intros [_ Ha]. unfold request_of. destruct (Ha n) as [-> ->]. done. Qed.

Lemma observeElements_spec s :
  page (observeElements s) = page s
  ∧ fetches (observeElements s) = fetches s
  ∧ observer (observeElements s)
    = (λ o, list_to_set (lazyElements (page s)) ∪ o) <$> observer s.
Proof.
  unfold observeElements. generalize (lazyElements (page s)) as l.
  intros l. revert s. induction l as [|n l IH]; intros s; cbn.
  - split_and!; [done | done |]. destruct (observer s) as [o|]; cbn; [|done].
    f_equal. apply set_eq. intros x. rewrite elem_of_union, elem_of_empty. tauto.
  - destruct (IH (observe n s)) as (-> & -> & ->). cbn.
    split_and!; [done | done |]. destruct (observer s) as [o|]; cbn; [|done].
    f_equal. apply set_eq. intros x.
    rewrite !elem_of_union, elem_of_singleton. tauto.
Qed.

Lemma init_observing p :
  page (init true p) = p
  ∧ loads (init true p) = []
  ∧ fetches (init true p) = []
  ∧ ∀ n, n ∈ observed (init true p) ↔ n ∈ lazyElements p.
Proof.
  unfold init, observed. cbn [page observer loads fetches].
  rewrite observeElements_loads.
  destruct (observeElements_spec
              {| page := p; observer := Some ∅; loads := []; fetches := [] |})
    as (-> & -> & ->). cbn.
  split_and!; [done | done | done |].
  intros n. rewrite elem_of_union, elem_of_list_to_set, elem_of_empty. tauto.
Qed.

(** X5.  On a browser with [IntersectionObserver], constructing the loader
    loads nothing, requests nothing and leaves the page as it is: it only
    starts watching the elements that carry [data-lazy], and no others. *)
Theorem construction_only_observes (p : Page) :
  let s := init true p in
  page s = p ∧ loads s = [] ∧ fetches s = []
  ∧ ∀ n, n ∈ observed s ↔ n ∈ lazyElements p.
Proof. apply init_observing. Qed.

Lemma loadComponent_fetches n s :
  fetches (loadComponent n s) = fetches s ++ request_of (page s) n.
Proof.
  rewrite loadComponent_kind. unfold request_of.
  destruct (kind_of _); cbn; try by rewrite app_nil_r.
  unfold loadGeneric. cbn.
  destruct (elements (page s) !! n ≫= src) as [[|a url]|]; cbn; by rewrite ?app_nil_r.
Qed.

Lemma on_entry_fetches p e s :
  same_attributes p (page s) →
  fetches s = loads s ≫= request_of p →
  fetches (on_entry s e) = loads (on_entry s e) ≫= request_of p.
Proof.
  intros Ha Hf. destruct (isIntersecting e) eqn:Ei; [|by rewrite on_entry_skip].
  rewrite on_entry_loads by done. unfold on_entry. rewrite Ei. cbn.
  rewrite loadComponent_fetches, Hf, (same_attributes_request _ _ _ Ha).
  rewrite bind_app. cbn. by rewrite app_nil_r.
Qed.

Lemma callback_fetches p entries : ∀ s,
  same_attributes p (page s) →
  fetches s = loads s ≫= request_of p →
  fetches (callback entries s) = loads (callback entries s) ≫= request_of p.
Proof.
  induction entries as [|e entries IH]; intros s Ha Hf; cbn; [done|].
  apply IH.
  - eapply same_attributes_trans; [exact Ha | apply on_entry_attributes].
  - by apply on_entry_fetches.
Qed.

Lemma loadAll_spec p l : ∀ s,
  same_attributes p (page s) →
  fetches s = loads s ≫= request_of p →
  let s' := fold_left (λ s n, loadComponent n s) l s in
  same_attributes p (page s') ∧ fetches s' = loads s' ≫= request_of p
  ∧ observer s' = observer s.
Proof.
  induction l as [|n l IH]; intros s Ha Hf; cbn; [done|].
  destruct (IH (loadComponent n s)) as (? & ? & Ho).
  - eapply same_attributes_trans; [exact Ha | apply loadComponent_attributes].
  - rewrite loadComponent_fetches, loadComponent_loads, Hf,
      (same_attributes_request _ _ _ Ha), bind_app. cbn. by rewrite app_nil_r.
  - split_and!; [done | done |]. by rewrite Ho, loadComponent_observer.
Qed.

Lemma visited_attributes p s : visited p s → same_attributes p (page s).
Proof.
  induction 1 as [supported|s entries _ IH].
  - destruct supported; cbn.
    + by destruct (observeElements_spec
                     {| page := p; observer := Some ∅; loads := []; fetches := [] |})
        as (-> & _ & _).
    + by apply (loadAll_spec p (lazyElements p)
                  {| page := p; observer := None; loads := []; fetches := [] |}).
  - eapply same_attributes_trans; [exact IH | apply callback_attributes].
Qed.

Lemma requests_chain p s : visited p s → fetches s = loads s ≫= request_of p.
Proof.
  induction 1 as [supported|s entries Hv IH].
  - destruct supported; cbn.
    + unfold init. cbn [page observer loads fetches].
      rewrite observeElements_loads.
      by destruct (observeElements_spec
                     {| page := p; observer := Some ∅; loads := []; fetches := [] |})
        as (_ & -> & _).
    + by apply (loadAll_spec p (lazyElements p)
                  {| page := p; observer := None; loads := []; fetches := [] |}).
  - apply callback_fetches; [by apply visited_attributes | done].
Qed.

(** X6.  The requests the loader has issued are exactly those of the
    elements it has loaded, in the order of loading: one request to the
    element's own [data-src] for each load of an element that is neither a
    map, a chart nor a table and has a non-empty [data-src], and no other
    request. *)
Theorem requests_follow_loads (p : Page) (s : State) :
  visited p s → fetches s = loads s ≫= request_of p.
Proof. apply requests_chain. Qed.

Lemma loadAll_observer l : ∀ s,
  observer (fold_left (λ s n, loadComponent n s) l s) = observer s.
Proof.
  induction l as [|n l IH]; intros s; cbn; [done|].
  by rewrite IH, loadComponent_observer.
Qed.

(** X7.  On a browser without [IntersectionObserver], constructing the
    loader loads every element that carries [data-lazy], in document order,
    and no other; the observer stays [null].  Each element is loaded once
    when the document lists no element twice. *)
Theorem fallback_loads_everything (p : Page) :
  let s := init false p in
  loads s = lazyElements p
  ∧ observer s = None
  ∧ (NoDup (order p) → NoDup (loads s)).
Proof.
  cbn zeta. unfold init. rewrite loadAllComponents_loads. cbn.
  split_and!; [done | | intros Hnd; by apply NoDup_filter].
  unfold loadAllComponents. by rewrite loadAll_observer.
Qed.

(** Watched and loaded elements all carry [data-lazy]. *)
Definition within_lazy (p : Page) (s : State) : Prop :=
  (∀ n, n ∈ observed s → n ∈ lazyElements p)
  ∧ (∀ n, n ∈ loads s → n ∈ lazyElements p).

Lemma on_entry_within_lazy p e s :
  within_lazy p s → target e ∈ lazyElements p → within_lazy p (on_entry s e).
Proof.
  intros [Ho Hl] Hin. destruct (isIntersecting e) eqn:Ei; [|by rewrite on_entry_skip].
  split.
  - intros n. rewrite on_entry_observed by done. intros [? _]%elem_of_difference.
    by apply Ho.
  - intros n. rewrite on_entry_loads by done.
    intros [?|Heq%list_elem_of_singleton]%elem_of_app; [by apply Hl|]. by subst n.
Qed.

Lemma callback_within_lazy p entries : ∀ s,
  within_lazy p s → (∀ e, e ∈ entries → target e ∈ lazyElements p) →
  within_lazy p (callback entries s).
Proof.
  induction entries as [|e entries IH]; intros s Hw Hobs; cbn; [done|].
  apply IH.
  - apply on_entry_within_lazy; [done|]. apply Hobs. by left.
  - intros e' He'. apply Hobs. by right.
Qed.

Lemma reachable_within_lazy p s : reachable p s → within_lazy p s.
Proof.
  induction 1 as [|s entries _ IH [Hobs _]].
  - destruct (init_observing p) as (_ & Hl & _ & Ho). split.
    + intros n. by rewrite Ho.
    + intros n. rewrite Hl. by intros ?%elem_of_nil.
  - apply callback_within_lazy; [done|]. intros e He. destruct IH as [Ho _].
    apply Ho. by apply Hobs.
Qed.

(** X8.  As long as the browser reports watched targets only, the loader
    never loads, and never requests anything for, an element without a
    [data-lazy] attribute. *)
Theorem only_lazy_elements_are_loaded (p : Page) (s : State) :
  reachable p s →
  (∀ n, n ∈ loads s → is_Some (elements p !! n ≫= lazy))
  ∧ (∀ n url, (n, url) ∈ fetches s → is_Some (elements p !! n ≫= lazy)).
Proof.
  intros Hr. destruct (reachable_within_lazy p s Hr) as [_ Hl].
  assert (Hlazy : ∀ n, n ∈ loads s → is_Some (elements p !! n ≫= lazy)).
  { intros n Hn%Hl. unfold lazyElements in Hn. by apply list_elem_of_filter in Hn as [? _]. }
  split; [done|]. intros n url Hin.
  rewrite (requests_chain p s (reachable_visited p s Hr)) in Hin.
  apply list_elem_of_bind in Hin as (m & Hreq & Hm).
  assert (n = m) as ->; [|by apply Hlazy].
  unfold request_of in Hreq. destruct (kind_of _); try by apply elem_of_nil in Hreq.
  destruct (elements p !! m ≫= src) as [[|a u]|]; try by apply elem_of_nil in Hreq.
  apply list_elem_of_singleton in Hreq. congruence.
Qed.

(** X9.  An element that is neither a map, a chart nor a table and has no
    [data-src], or an empty one, is given up silently when it comes into
    view: the page and the requests stay as they are, and the element is no
    longer watched. *)
Theorem sourceless_element_is_dropped (s : State) (n : Node) :
  kind_of (elements (page s) !! n ≫= lazy) = KGeneric →
  request_of (page s) n = [] →
  let s' := on_entry s (mkEntry n true) in
  page s' = page s
  ∧ fetches s' = fetches s
  ∧ loads s' = loads s ++ [n]
  ∧ n ∉ observed s'.
Proof.
  intros Hk Hreq. cbn zeta.
  rewrite on_entry_loads, on_entry_observed by done.
  unfold on_entry. cbn. rewrite loadComponent_fetches, Hreq, app_nil_r.
  rewrite loadComponent_kind, Hk, loadGeneric_page. cbn.
  split_and!; [done | done | done |].
  rewrite elem_of_difference, elem_of_singleton. by intros [_ ?].
Qed.

(** X10.  The callback acts on the intersecting entries only: entries that
    report an element leaving the view change nothing. *)
Theorem callback_ignores_leaving (entries : list Entry) (s : State) :
  callback entries s = callback (filter (λ e, isIntersecting e = true) entries) s.
Proof.
  revert s. induction entries as [|e entries IH]; intros s; [done|].
  destruct (isIntersecting e) eqn:Ei.
  - rewrite filter_cons_True by done. cbn. apply IH.
  - rewrite filter_cons_False by congruence. cbn. rewrite on_entry_skip by done.
    apply IH.
Qed.
















Lemma callback_loads entries : ∀ s,
  loads (callback entries s)
    = loads s ++ (target <$> filter (λ e, isIntersecting e = true) entries).
Proof.
  induction entries as [|e entries IH]; intros s.
  - cbn. by rewrite app_nil_r.
  - change (callback (e :: entries) s) with (callback entries (on_entry s e)).
    rewrite IH. destruct (isIntersecting e) eqn:Ei.
    + rewrite filter_cons_True, on_entry_loads by done. cbn. by rewrite <- app_assoc.
    + by rewrite filter_cons_False, on_entry_skip by congruence.
Qed.

Lemma callback_observed entries : ∀ s n,
  n ∈ observed (callback entries s)
  ↔ n ∈ observed s
    ∧ n ∉ (target <$> filter (λ e, isIntersecting e = true) entries).
Proof.
  induction entries as [|e entries IH]; intros s n.
  - cbn. split; [intros ?; split; [done | apply not_elem_of_nil] | by intros [? _]].
  - change (callback (e :: entries) s) with (callback entries (on_entry s e)).
    rewrite IH. destruct (isIntersecting e) eqn:Ei.
    + rewrite filter_cons_True, on_entry_observed by done. cbn.
      rewrite elem_of_difference, elem_of_singleton, not_elem_of_cons. tauto.
    + by rewrite filter_cons_False, on_entry_skip by congruence.
Qed.

(** X22.  The callback loads the target of every intersecting entry it is
    handed, in the order of the entries, and stops watching it; it does not
    check that the target was being watched, nor that it has not been
    loaded before. *)
Theorem callback_loads_every_intersecting_target (entries : list Entry) (s : State) :
  loads (callback entries s)
    = loads s ++ (target <$> filter (λ e, isIntersecting e = true) entries)
  ∧ ∀ n, n ∈ observed (callback entries s)
         ↔ n ∈ observed s
           ∧ n ∉ (target <$> filter (λ e, isIntersecting e = true) entries).
Proof. split; [apply callback_loads | apply callback_observed]. Qed.

(** A page with a map, two other lazy elements, one of them with a
    [data-src] and the other nested in the map, and a paragraph without
    [data-lazy]. *)
Definition gallery_page : Page :=
  {| elements := {[ 1%nat := mkElement (Some "map"%string) None Original;
                    2%nat := mkElement (Some "widget"%string) (Some "/widget"%string) Original;
                    3%nat := mkElement (Some "note"%string) None Original;
                    4%nat := mkElement None (Some "/ignored"%string) Original ]};
     order := [1; 2; 3; 4]%nat;
     nested := λ n, if decide (n = 1%nat) then [3%nat] else [] |}.

(** Without [IntersectionObserver] the map is loaded first, which takes the
    note nested in it out of the document; the note is loaded all the same,
    from the list made before. *)
Example nested_element_leaves_the_document :
  order (page (init false gallery_page)) = [1; 2; 4]%nat
  ∧ loads (init false gallery_page) = [1; 2; 3]%nat.
Proof. by vm_compute. Qed.

Lemma gallery_reachable :
  reachable gallery_page
    (callback [mkEntry 2%nat true; mkEntry 1%nat true; mkEntry 3%nat false]
       (init true gallery_page)).
Proof.
  apply reach_callback; [apply reach_init|]. split.
  - intros e He. apply list_elem_of_In in He. cbn in He.
    destruct He as [<-|[<-|[<-|[]]]]; by vm_compute.
  - cbn. by apply (bool_decide_unpack _).
Defined.

Lemma requests_follow_loads_witness :
  let s := callback [mkEntry 2%nat true; mkEntry 1%nat true; mkEntry 3%nat false]
             (init true gallery_page) in
  visited gallery_page s ∧ fetches s = loads s ≫= request_of gallery_page.
Proof.
  intros s.
  assert (Hv : visited gallery_page s) by (apply visit_callback, visit_init).
  split; [exact Hv|]. exact (requests_follow_loads gallery_page s Hv).
Defined.

Lemma only_lazy_elements_are_loaded_witness :
  let s := callback [mkEntry 2%nat true; mkEntry 1%nat true; mkEntry 3%nat false]
             (init true gallery_page) in
  reachable gallery_page s
  ∧ (∀ n, n ∈ loads s → is_Some (elements gallery_page !! n ≫= lazy)).
Proof.
  intros s. split; [exact gallery_reachable|].
  exact (proj1 (only_lazy_elements_are_loaded gallery_page s gallery_reachable)).
Defined.

Lemma sourceless_element_is_dropped_witness :
  let s := init true gallery_page in
  let s' := on_entry s (mkEntry 3%nat true) in
  page s' = page s ∧ fetches s' = fetches s ∧ loads s' = loads s ++ [3%nat]
  ∧ (3%nat ∉ observed s').
Proof.
  intros s.
  apply (sourceless_element_is_dropped s 3%nat); reflexivity.
Defined.

Lemma fallback_loads_everything_witness :
  NoDup (order gallery_page) ∧ NoDup (loads (init false gallery_page)).
Proof.
  assert (Hnd : NoDup (order gallery_page)) by (by apply (bool_decide_unpack _)).
  split; [exact Hnd|].
  exact (proj2 (proj2 (fallback_loads_everything gallery_page)) Hnd).
Defined.

End LazyLoaderMore.


(** ** PerformanceMonitor: further properties *)

Module PerformanceMonitorMore.
Import PerformanceMonitor PerformanceMonitorSpec.
Implicit Types (s : State) (evs : list BrowserEvent) (supported : bool).

(** A [load] event that finds its navigation entry and draws below the
    threshold. *)
Definition sampled (ev : BrowserEvent) : bool :=
  match ev with
  | Load (Some _) draw _ _ => if Qlt_le_dec draw threshold then true else false
  | _ => false
  end.

Definition is_load (ev : BrowserEvent) : bool :=
  match ev with Load _ _ _ _ => true | _ => false end.

(** The timings of the [load] events that found their navigation entry. *)
Definition timings (evs : list BrowserEvent) : list PageLoad :=
  omap (λ ev, match ev with Load pl _ _ _ => pl | _ => None end) evs.

(** The interactions that the clicks of a visit amount to. *)
Definition clicks (evs : list BrowserEvent) : list Interaction :=
  omap (λ ev, match ev with
              | Click rt tag now => Some (mkInteraction "click" rt tag now)
              | _ => None
              end) evs.

(** The start times the observer has been handed. *)
Definition painted (ev : BrowserEvent) : list Q :=
  match ev with Paint startTimes => startTimes | _ => [] end.

Definition paints (evs : list BrowserEvent) : list Q := evs ≫= painted.

(** A request as [reportMetrics] makes them. *)
Definition well_formed (r : Request) : Prop :=
  url r = "/api/v1/performance-metrics"%string
  ∧ method r = "POST"%string
  ∧ headers r = [("Content-Type", "application/json")]%string
  ∧ is_Some (pageLoad (body_metrics (body r))).

Lemma session_app supported evs evs' s :
  session supported (evs ++ evs') s = session supported evs' (session supported evs s).
Proof. apply fold_left_app. Qed.

Lemma session_cons supported ev evs s :
  session supported (ev :: evs) s = session supported evs (handle supported s ev).
Proof. done. Qed.

Lemma onPaintEntries_sent sts : ∀ s, sent (onPaintEntries sts s) = sent s.
Proof.
  unfold onPaintEntries. induction sts as [|st sts IH]; intros s; cbn; [done|].
  by rewrite IH.
Qed.

Lemma onPaintEntries_metrics sts : ∀ s,
  metrics (onPaintEntries sts s) =
  {| pageLoad := pageLoad (metrics s);
     largestContentfulPaint :=
       from_option Some (largestContentfulPaint (metrics s)) (last sts);
     interactions := interactions (metrics s) |}.
Proof.
  unfold onPaintEntries. induction sts as [|st sts IH]; intros s; cbn.
  - by destruct (metrics s).
  - rewrite IH, last_cons. cbn. by destruct (last sts).
Qed.

Lemma handle_not_sampled supported ev s :
  sampled ev = false → sent (handle supported s ev) = sent s.
Proof.
  destruct ev as [[pl|] draw now href|rt tag now|sts]; cbn; try done.
  - unfold onLoad. intros Hd. rewrite reportMetrics_not_below; [done|].
    by destruct (Qlt_le_dec draw threshold) as [|?%Qle_not_lt].
  - intros _. destruct supported; [apply onPaintEntries_sent | done].
Qed.

Lemma handle_sampled supported ev s :
  sampled ev = true →
  ∃ r, sent (handle supported s ev) = sent s ++ [r]
       ∧ well_formed r
       ∧ body_metrics (body r) = metrics (handle supported s ev).
Proof.
  destruct ev as [[pl|] draw now href|rt tag now|sts]; cbn; try done.
  intros Hd. unfold onLoad, reportMetrics.
  destruct (Qlt_le_dec draw threshold); [|done]. cbn.
  eexists. split; [done|]. by repeat split.
Qed.

Lemma handle_metrics_load supported s pl draw now href :
  pageLoad (metrics (handle supported s (Load (Some pl) draw now href))) = Some pl.
Proof. apply onLoad_metrics. Qed.

Lemma session_sent supported evs : ∀ s,
  Forall well_formed (sent s) →
  length (sent (session supported evs s))
    = (length (sent s) + length (filter (λ ev, sampled ev = true) evs))%nat
  ∧ Forall well_formed (sent (session supported evs s))
  ∧ sent s `prefix_of` sent (session supported evs s).
Proof.
  induction evs as [|ev evs IH]; intros s Hw.
  - cbn. split_and!; [lia | done | done].
  - rewrite session_cons. destruct (sampled ev) eqn:Es.
    + destruct (handle_sampled supported ev s Es) as (r & Hr & Hwr & _).
      destruct (IH (handle supported s ev)) as (Hl & Hall & Hp).
      { rewrite Hr. apply Forall_app. split; [done|]. by apply Forall_singleton. }
      rewrite filter_cons_True by done. split_and!; [|done|].
      * rewrite Hl, Hr, length_app. cbn. lia.
      * etrans; [|exact Hp]. rewrite Hr. by apply prefix_app_r.
    + pose proof (handle_not_sampled supported ev s Es) as Hr.
      destruct (IH (handle supported s ev)) as (Hl & Hall & Hp); [by rewrite Hr|].
      rewrite filter_cons_False by congruence.
      split_and!; [| done |]; by rewrite <- Hr.
Qed.

(** X12.  Over a whole visit the monitor sends as many requests as there
    were [load] events that found their navigation entry and drew below
    the threshold, and nothing else sends one.  Every request is a POST of
    JSON to [/api/v1/performance-metrics] whose metrics carry the page-load
    timings. *)
Theorem requests_are_sampled_loads supported evs :
  length (sent (session supported evs new))
    = length (filter (λ ev, sampled ev = true) evs)
  ∧ Forall well_formed (sent (session supported evs new)).
Proof.
  destruct (session_sent supported evs new) as (Hl & Hw & _); [by constructor|].
  by split.
Qed.

Lemma session_sent_no_load supported evs : ∀ s,
  Forall (λ ev, is_load ev = false) evs → sent (session supported evs s) = sent s.
Proof.
  induction evs as [|ev evs IH]; intros s Hall; [done|].
  apply Forall_cons in Hall as [Hev Hall]. rewrite session_cons, IH by done.
  apply handle_not_sampled. by destruct ev.
Qed.

(** X13.  A request, once sent, is never retracted or altered by later
    events, and events other than [load] send nothing: the clicks and
    paints that follow the page load are never reported. *)
Theorem later_events_do_not_report supported evs evs' s :
  Forall well_formed (sent s) →
  sent (session supported evs s) `prefix_of` sent (session supported (evs ++ evs') s)
  ∧ (Forall (λ ev, is_load ev = false) evs' →
     sent (session supported (evs ++ evs') s) = sent (session supported evs s)).
Proof.
  intros Hw. rewrite session_app. split.
  - destruct (session_sent supported evs s Hw) as (_ & Hw' & _).
    by destruct (session_sent supported evs' (session supported evs s) Hw')
      as (_ & _ & ?).
  - apply session_sent_no_load.
Qed.

Lemma clicks_cons ev evs : clicks (ev :: evs) = clicks [ev] ++ clicks evs.
Proof. unfold clicks. cbn. by destruct ev. Qed.

Lemma clicks_one ev : clicks [ev] = [] ∨ ∃ i, clicks [ev] = [i].
Proof. destruct ev; cbn; eauto. Qed.

Lemma handle_interactions supported ev s :
  interactions (metrics (handle supported s ev))
    = match clicks [ev] with
      | [] => interactions (metrics s)
      | l => Some (default [] (interactions (metrics s)) ++ l)
      end.
Proof.
  destruct ev as [[pl|] draw now href|rt tag now|sts]; cbn; try done.
  - unfold onLoad. by rewrite reportMetrics_metrics.
  - destruct supported; by rewrite ?onPaintEntries_metrics.
Qed.

Lemma session_interactions supported evs : ∀ s,
  interactions (metrics (session supported evs s))
    = match clicks evs with
      | [] => interactions (metrics s)
      | l => Some (default [] (interactions (metrics s)) ++ l)
      end.
Proof.
  induction evs as [|ev evs IH]; intros s; [done|].
  rewrite session_cons, IH, handle_interactions, (clicks_cons ev evs).
  destruct (clicks_one ev) as [->|[i ->]]; [done|]. cbn.
  destruct (clicks evs); [done|]. cbn. by rewrite <- app_assoc.
Qed.

(** X14.  The interactions of the metrics are the clicks of the visit, in
    the order of their animation frames, each of type [click] with its
    response time, tag name and timestamp; the property is absent until the
    first click. *)
Theorem interactions_are_the_clicks supported evs :
  interactions (metrics (session supported evs new))
    = match clicks evs with [] => None | l => Some l end.
Proof. rewrite session_interactions. by destruct (clicks evs). Qed.

Lemma timings_cons ev evs : timings (ev :: evs) = timings [ev] ++ timings evs.
Proof. unfold timings. cbn. by destruct ev as [[?|] ? ? ?| |]. Qed.

Lemma handle_pageLoad supported ev s :
  pageLoad (metrics (handle supported s ev))
    = from_option Some (pageLoad (metrics s)) (last (timings [ev])).
Proof.
  destruct ev as [[pl|] draw now href|rt tag now|sts]; cbn; try done.
  - apply onLoad_metrics.
  - destruct supported; by rewrite ?onPaintEntries_metrics.
Qed.

Lemma session_pageLoad supported evs : ∀ s,
  pageLoad (metrics (session supported evs s))
    = from_option Some (pageLoad (metrics s)) (last (timings evs)).
Proof.
  induction evs as [|ev evs IH]; intros s; [done|].
  rewrite session_cons, IH, handle_pageLoad, (timings_cons ev evs), last_app.
  by destruct (last (timings evs)).
Qed.

Lemma handle_paint supported ev s :
  largestContentfulPaint (metrics (handle supported s ev))
    = from_option Some (largestContentfulPaint (metrics s))
        (if supported then last (painted ev) else None).
Proof.
  destruct ev as [[pl|] draw now href|rt tag now|sts]; cbn.
  - unfold onLoad. rewrite reportMetrics_metrics. by destruct supported.
  - by destruct supported.
  - by destruct supported.
  - destruct supported; by rewrite ?onPaintEntries_metrics.
Qed.

Lemma session_paint supported evs : ∀ s,
  largestContentfulPaint (metrics (session supported evs s))
    = from_option Some (largestContentfulPaint (metrics s))
        (if supported then last (paints evs) else None).
Proof.
  induction evs as [|ev evs IH]; intros s; [by destruct supported|].
  rewrite session_cons, IH, handle_paint. unfold paints. rewrite bind_cons, last_app.
  destruct supported; [|done]. by destruct (last (evs ≫= painted)).
Qed.

(** X15.  The page-load timings of the metrics are those of the last
    [load] event that found its navigation entry, and the largest
    contentful paint is the start time of the last entry the observer was
    handed; on a browser without [PerformanceObserver] it is never set. *)
Theorem last_measurement_wins supported evs :
  pageLoad (metrics (session supported evs new)) = last (timings evs)
  ∧ largestContentfulPaint (metrics (session supported evs new))
      = if supported then last (paints evs) else None.
Proof.
  rewrite session_pageLoad, session_paint. cbn. split.
  - by destruct (last (timings evs)).
  - destruct supported; [|done]. by destruct (last (paints evs)).
Qed.

(** X16.  [displayMetrics()] after a visit prints the last page-load
    timings, the last largest contentful paint and the number of clicks
    recorded, which is 0 while the interactions are still undefined. *)
Theorem displayMetrics_summarises supported evs :
  displayMetrics (session supported evs new)
    = [ LogPageLoad (last (timings evs));
        LogLargestContentfulPaint (if supported then last (paints evs) else None);
        LogInteractions (length (clicks evs)) ].
Proof.
  unfold displayMetrics.
  rewrite session_pageLoad, session_paint, session_interactions. cbn.
  repeat f_equal.
  - by destruct (last (timings evs)).
  - destruct supported; [|done]. by destruct (last (paints evs)).
  - by destruct (clicks evs).
Qed.

(** X17.  For a draw on the grid of multiples of [2^-53], which is where
    binary64 generators draw from, [reportMetrics] sends its request
    exactly when the draw is below one tenth: rounding the literal [0.1]
    to binary64 does not change who is sampled. *)
Theorem sampling_on_the_grid (k : Z) (now : Z) (href : string) (s : State) :
  length (sent (reportMetrics (k # 9007199254740992) now href s))
    = (length (sent s) + if decide (10 * k < 9007199254740992)%Z then 1 else 0)%nat.
Proof.
  case_decide as Hk.
  - rewrite reportMetrics_below.
    + cbn [sent]. rewrite length_app. cbn. lia.
    + apply threshold_on_grid. unfold Qlt. cbn. lia.
  - rewrite reportMetrics_not_below; [lia|].
    intros Hlt%threshold_on_grid. unfold Qlt in Hlt. cbn in Hlt. lia.
Qed.

Lemma later_events_do_not_report_witness :
  let evs := [Load (Some (mkPageLoad 12 3 840)) (1 # 20) 1000 "/"%string] in
  let evs' := [Click 4 "BUTTON"%string 2000; Paint [700%Q]] in
  sent (session true (evs ++ evs') new) = sent (session true evs new).
Proof.
  intros evs evs'.
  apply (later_events_do_not_report true evs evs' new); by repeat constructor.
Defined.

Lemma append_cons a (t r : string) : String a t +:+ r = String a (t +:+ r).
Proof. done. Qed.

Lemma substring_skip (pre r : string) (k : nat) :
  substring (String.length pre) k (pre +:+ r) = substring 0 k r.
Proof. induction pre as [|a pre IH]; [done|]. rewrite append_cons. cbn. exact IH. Qed.

Lemma substring_prefix (t post : string) :
  substring 0 (String.length t) (t +:+ post) = t.
Proof.
  induction t as [|a t IH]; [by destruct post|].
  rewrite append_cons. cbn. by rewrite IH.
Qed.

Lemma substring_head (t : string) : ∀ hay,
  substring 0 (String.length t) hay = t → ∃ post, hay = t +:+ post.
Proof.
  induction t as [|b t IH]; intros hay Hs; [by exists hay|].
  destruct hay as [|a hay]; [done|]. cbn in Hs. injection Hs as -> Hs.
  destruct (IH hay Hs) as [post ->]. by exists post.
Qed.

Lemma substring_split (hay t : string) : ∀ m,
  t ≠ EmptyString →
  substring m (String.length t) hay = t → ∃ pre post, hay = pre +:+ t +:+ post.
Proof.
  induction hay as [|a hay IH]; intros m Ht Hs.
  - destruct m; cbn in Hs; destruct t; done.
  - destruct m as [|m].
    + destruct (substring_head t _ Hs) as [post ->]. by exists EmptyString, post.
    + cbn in Hs. destruct (IH m Ht Hs) as (pre & post & ->).
      by exists (String a pre), post.
Qed.

Lemma includes_spec (needle hay : string) :
  needle ≠ EmptyString →
  includes needle hay = true ↔ ∃ pre post, hay = pre +:+ needle +:+ post.
Proof.
  intros Hne. unfold includes. split.
  - destruct (index 0 needle hay) as [m|] eqn:E; [|done]. intros _.
    apply index_correct1 in E. by apply substring_split in E.
  - intros (pre & post & ->).
    destruct (index 0 needle (pre +:+ needle +:+ post)) eqn:E; [done|].
    exfalso. apply (index_correct3 0 (String.length pre)) in E; [|done|lia].
    apply E. by rewrite substring_skip, substring_prefix.
Qed.

(** X18.  The debug display is switched on by a substring test on the
    query string: the metrics are printed, once, five seconds after the
    script ran, exactly when [debug=performance] occurs somewhere in the
    query string, whether or not it is a parameter of its own. *)
Theorem debug_switch_is_a_substring_test (search : string) :
  (debug_timers search = [(5000, DisplayMetrics)]
   ↔ ∃ pre post, search = pre +:+ "debug=performance" +:+ post)
  ∧ (debug_timers search = [] ∨ debug_timers search = [(5000, DisplayMetrics)]).
Proof.
  unfold debug_timers. rewrite <- (includes_spec "debug=performance" search) by done.
  destruct (includes "debug=performance" search); split; (done || by eauto).
Qed.
End PerformanceMonitorMore.


(** ** The dashboard launcher *)

Module LauncherSpec.
Import Launcher.
Implicit Types (gen : Generator) (fs : gset string).


(** The working directory when the second dashboard is looked for. *)
Definition after_first (gen : Generator) (fs : gset string) : gset string :=
  if decide (dashboard ∈ fs) then fs else gen "frontend_dashboard_mapaq.py" fs.

Lemma ouvrir_dashboard_trace gen fs :
  trace (ouvrir_dashboard gen fs)
  = ((if decide (dashboard ∈ fs) then [] else [Python "frontend_dashboard_mapaq.py"])
     ++ (if decide (unified ∈ after_first gen fs) then []
         else [Python "integration_track_c_components_robuste.py"]))
    ++ [Start dashboard; Start unified; Pause].
Proof.
  unfold ouvrir_dashboard, after_first, ensure, start, pause. cbn.
  destruct (decide (dashboard ∈ fs)); cbn;
    match goal with |- context [decide (unified ∈ ?X)] => destruct (decide (unified ∈ X)) end;
    done.
Qed.

Lemma ouvrir_dashboard_files gen fs :
  files (ouvrir_dashboard gen fs)
  = if decide (unified ∈ after_first gen fs) then after_first gen fs
    else gen "integration_track_c_components_robuste.py" (after_first gen fs).
Proof.
  unfold ouvrir_dashboard, after_first, ensure, start, pause. cbn.
  destruct (decide (dashboard ∈ fs)); cbn;
    match goal with |- context [decide (unified ∈ ?X)] => destruct (decide (unified ∈ X)) end;
    done.
Qed.


(** X20.  A generator runs exactly when its dashboard is missing at the
    time the launcher looks for it, the second look coming after the first
    generator has run; with both dashboards in place the launcher
    generates nothing and leaves the directory as it is. *)
Theorem generators_run_for_missing_files_only gen fs :
  (Python "frontend_dashboard_mapaq.py" ∈ trace (ouvrir_dashboard gen fs)
   ↔ dashboard ∉ fs)
  ∧ (Python "integration_track_c_components_robuste.py" ∈ trace (ouvrir_dashboard gen fs)
     ↔ unified ∉ after_first gen fs)
  ∧ (dashboard ∈ fs → unified ∈ fs →
     files (ouvrir_dashboard gen fs) = fs
     ∧ trace (ouvrir_dashboard gen fs) = [Start dashboard; Start unified; Pause]).
Proof.
  rewrite ouvrir_dashboard_trace, ouvrir_dashboard_files. unfold after_first.
  destruct (decide (dashboard ∈ fs)) as [Hd|Hd]; cbn;
    match goal with |- context [decide (unified ∈ ?X)] =>
      destruct (decide (unified ∈ X)) as [Hu|Hu] end; cbn;
    (split_and!; [ | | tauto]);
    rewrite ?elem_of_cons, ?elem_of_nil; split; intros; try done; try tauto;
    repeat match goal with H : _ ∨ _ |- _ => destruct H end; done.
Qed.

Lemma generators_run_for_missing_files_only_witness :
  let fs : gset string := {[dashboard; unified]} in
  files (ouvrir_dashboard (λ _ fs', fs') fs) = fs.
Proof.
  intros fs.
  destruct (generators_run_for_missing_files_only (λ _ fs', fs') fs) as (_ & _ & Hboth).
  apply Hboth.
  - apply elem_of_union. left. by apply elem_of_singleton.
  - apply elem_of_union. right. by apply elem_of_singleton.
Defined.
End LauncherSpec.


(** ** LazyLoader: each watched element is loaded once *)

Module LazyLoaderOnce.
Import LazyLoader LazyLoaderSpec LazyLoaderMore.

(** The elements with [data-lazy] are those already loaded and those still
    watched, and no element is both; no element is loaded twice. *)
Definition partitioned (p : Page) (s : State) : Prop :=
  NoDup (loads s)
  ∧ (∀ n, n ∈ lazyElements p ↔ n ∈ loads s ∨ n ∈ observed s)
  ∧ (∀ n, n ∈ loads s → n ∉ observed s).

Lemma init_partitioned p : partitioned p (init true p).
Proof.
  destruct (init_observing p) as (_ & Hl & _ & Ho). unfold partitioned.
  rewrite Hl. split_and!.
  - constructor.
  - intros n. rewrite Ho, elem_of_nil. tauto.
  - intros n Hn. by apply elem_of_nil in Hn.
Qed.

Lemma callback_partitioned p entries s :
  partitioned p s → reported_once s entries → partitioned p (callback entries s).
Proof.
  intros (Hnd & Hpart & Hdis) [Hobs Honce]. unfold partitioned.
  rewrite callback_loads. fold (intersecting entries). split_and!.
  - apply NoDup_app. split_and!; [done | | done].
    intros n Hn Hin. by apply (Hdis n Hn), Hobs.
  - intros n. rewrite Hpart, elem_of_app, callback_observed.
    fold (intersecting entries).
    destruct (decide (n ∈ intersecting entries)) as [Hin|Hout].
    + pose proof (Hobs n Hin). tauto.
    + tauto.
  - intros n Hn. rewrite callback_observed. fold (intersecting entries).
    apply elem_of_app in Hn as [Hn|Hn].
    + intros [Hin _]. by apply (Hdis n).
    + by intros [_ Hout].
Qed.

Lemma observing_partitioned p s : observing p s → partitioned p s.
Proof.
  induction 1 as [|s entries _ IH Hd].
  - apply init_partitioned.
  - by apply callback_partitioned.
Qed.

(** Batches in which no target occurs twice at all are of the kind
    asked for. *)
Lemma reachable_observing p s : reachable p s → observing p s.
Proof.
  induction 1 as [|s entries _ IH [Hobs Hnd]]; [constructor|].
  apply observing_callback; [done|]. split.
  - intros n (e & -> & [_ He]%list_elem_of_filter)%list_elem_of_fmap. by apply Hobs.
  - unfold intersecting. revert Hnd. clear.
    induction entries as [|e entries IH]; [done|].
    rewrite fmap_cons. intros [Hfresh Hnd]%NoDup_cons.
    destruct (isIntersecting e) eqn:Ei.
    + rewrite filter_cons_True, fmap_cons by done.
      apply NoDup_cons. split; [|by apply IH].
      intros (e' & Heq & [_ He']%list_elem_of_filter)%list_elem_of_fmap.
      apply Hfresh. rewrite Heq. by apply list_elem_of_fmap_2.
    + rewrite filter_cons_False by congruence. by apply IH.
Qed.

(** C9, as amended.  On a browser that supports [IntersectionObserver], as
    long as every batch reports as intersecting only watched targets and
    none of them twice: no element is passed to [loadComponent] twice; the
    elements with [data-lazy] are those loaded and those still watched,
    and a loaded element is not watched any more; and the callback passes
    every target that a batch reports as intersecting to [loadComponent],
    in the order of the batch, and stops watching it. *)
Theorem watched_elements_are_loaded_once (p : Page) (s : State) :
  observing p s →
  NoDup (loads s)
  ∧ (∀ n, n ∈ lazyElements p ↔ n ∈ loads s ∨ n ∈ observed s)
  ∧ (∀ n, n ∈ loads s → n ∉ observed s)
  ∧ ∀ entries,
      loads (callback entries s) = loads s ++ intersecting entries
      ∧ ∀ n, n ∈ intersecting entries → n ∉ observed (callback entries s).
Proof.
  intros Hobs. destruct (observing_partitioned p s Hobs) as (Hnd & Hpart & Hdis).
  split_and!; [done | done | done |].
  intros entries. split; [apply callback_loads|].
  intros n Hn. rewrite callback_observed. by intros [_ Hout].
Qed.

Lemma watched_elements_are_loaded_once_witness :
  let s := callback [mkEntry 3%nat true]
             (callback [mkEntry 2%nat false; mkEntry 2%nat true; mkEntry 1%nat true]
                (init true gallery_page)) in
  observing gallery_page s ∧ loads s = [2; 1; 3]%nat ∧ NoDup (loads s).
Proof.
  intros s.
  assert (Hr : observing gallery_page s).
  { apply observing_callback; [apply observing_callback; [apply observing_init|]|].
    - split.
      + intros n Hn. apply list_elem_of_In in Hn. cbn in Hn.
        destruct Hn as [<-|[<-|[]]]; by vm_compute.
      + by apply (bool_decide_unpack _).
    - split.
      + intros n Hn. apply list_elem_of_In in Hn. cbn in Hn.
        destruct Hn as [<-|[]]; by vm_compute.
      + by apply (bool_decide_unpack _). }
  split_and!; [exact Hr | reflexivity |].
  exact (proj1 (watched_elements_are_loaded_once gallery_page s Hr)).
Defined.

(** C9, as stated, fails: the callback loads a target again when one batch
    reports it as intersecting twice, as happens when the element has left
    the view and come back before the callback runs.  Here every target
    reported is a watched one. *)
Lemma repeated_intersection_loads_twice :
  ¬ (∀ p entries,
       (∀ e, e ∈ entries → target e ∈ observed (init true p)) →
       NoDup (loads (callback entries (init true p)))).
Proof.
  intros Hclaim.
  specialize (Hclaim gallery_page
                [mkEntry 1%nat true; mkEntry 1%nat false; mkEntry 1%nat true]).
  assert (Hl : loads (callback [mkEntry 1%nat true; mkEntry 1%nat false; mkEntry 1%nat true]
                        (init true gallery_page)) = [1; 1]%nat) by reflexivity.
  rewrite Hl in Hclaim.
  assert (Hnd : NoDup [1; 1]%nat).
  { apply Hclaim. intros e He. apply list_elem_of_In in He. cbn in He.
    destruct He as [<-|[<-|[<-|[]]]]; by vm_compute. }
  apply NoDup_cons in Hnd as [Hnot _]. apply Hnot. by left.
Qed.
End LazyLoaderOnce.
